(** * The libretro host adapter of core.h: symbol table, error
      enumeration, option variables, buffer pools, SRAM and the
      process-wide instance pointer.

    A [std::string] and a C string are sequences of bytes ([string]); a
    [QString] is a sequence of UTF-16 code units.  The header makes a
    [QString] of the plugin's [const char *] and turns its pieces back
    into [std::string]s, so the bytes go through Qt's UTF-8 decoder and
    encoder: a byte the decoder cannot read comes back as the three
    bytes of U+FFFD, and a leading byte-order mark is lost. *)

From Stdlib Require Import ZArith List String Ascii Bool Lia ZifyBool.
From stdpp Require Import base list.
Import ListNotations.

Local Open Scope Z_scope.
Local Open Scope string_scope.

(* ===================================================================== *)
(** ** Byte strings *)
(* ===================================================================== *)

Module Str.

(** The value of a byte, and the byte of a value. *)
Definition code (c : ascii) : Z := Z.of_N (N_of_ascii c).

Definition byte (z : Z) : ascii := ascii_of_N (Z.to_N z).

Fixpoint startsWith (needle s : string) : bool :=
  match needle, s with
  | EmptyString, _ => true
  | String _ _, EmptyString => false
  | String a needle', String b s' => Ascii.eqb a b && startsWith needle' s'
  end.

(** The position of the first [needle] in [s], counted from [from];
    [-1] when there is none. *)
Fixpoint indexOf_from (s needle : string) (from : Z) : Z :=
  if startsWith needle s then from
  else match s with
       | EmptyString => -1
       | String _ s' => indexOf_from s' needle (from + 1)
       end.

Definition indexOf (s needle : string) : Z := indexOf_from s needle 0.

(** The pieces of [s] between the bytes [sep], in order, empty ones
    included; one empty piece for the empty string. *)
Fixpoint split (sep : ascii) (s : string) : list string :=
  match s with
  | EmptyString => [EmptyString]
  | String c s' =>
      if Ascii.eqb c sep then EmptyString :: split sep s'
      else match split sep s' with
           | piece :: pieces => String c piece :: pieces
           | [] => [String c EmptyString]
           end
  end.

(** The inverse of [split]: the pieces with [sep] between them. *)
Fixpoint join (sep : ascii) (pieces : list string) : string :=
  match pieces with
  | [] => EmptyString
  | [piece] => piece
  | piece :: rest => piece ++ String sep (join sep rest)
  end.

Fixpoint contains_char (c : ascii) (s : string) : bool :=
  match s with
  | EmptyString => false
  | String a s' => Ascii.eqb a c || contains_char c s'
  end.

(** How many times [c] is in [s]. *)
Fixpoint count_char (c : ascii) (s : string) : nat :=
  match s with
  | EmptyString => O
  | String a s' => (if Ascii.eqb a c then 1 else 0) + count_char c s'
  end.

(** [needle] occurs in [s]. *)
Definition occurs (needle s : string) : Prop :=
  exists before after, s = before ++ needle ++ after.

End Str.

(* ===================================================================== *)
(** ** The [QString] operations the header calls (Qt 5) *)
(* ===================================================================== *)

Module QStr.

Local Open Scope Z_scope.

(** A UTF-16 code unit. *)
Definition QChar := Z.

Definition QString := list QChar.

(** [QChar( char )]. *)
Definition QChar_of_char (c : ascii) : QChar := Str.code c.

Definition ReplacementCharacter : QChar := 0xFFFD.

Definition LastValidCodePoint : Z := 0x10FFFF.

(** [( b & 0xc0 ) == 0x80] *)
Definition isContinuationByte (b : Z) : bool := (0x80 <=? b) && (b <? 0xC0).

Definition isSurrogate (u : Z) : bool := (0xD800 <=? u) && (u <? 0xE000).

Definition isHighSurrogate (u : Z) : bool := (0xD800 <=? u) && (u <? 0xDC00).

Definition isLowSurrogate (u : Z) : bool := (0xDC00 <=? u) && (u <? 0xE000).

(** The next byte when it is a continuation byte: its six low bits and
    what follows it.  [None] also at the end of the input. *)
Definition continuation (src : string) : option (Z * string) :=
  match src with
  | String c src' =>
      if isContinuationByte (Str.code c)
      then Some (Str.code c mod 64, src')
      else None
  | EmptyString => None
  end.

(** One code unit, or the surrogate pair of a code point past U+FFFF. *)
Definition utf16 (uc : Z) : list QChar :=
  if uc <? 0x10000 then [uc]
  else [uc / 1024 + 0xD7C0; uc mod 1024 + 0xDC00].

(** The checks on a decoded code point: not overlong, no surrogate,
    not past the last code point (non-characters pass). *)
Definition checked (min_uc uc : Z) (rest : string)
  : option (list QChar * string) :=
  if (uc <? min_uc) || isSurrogate uc || (uc >? LastValidCodePoint)
  then None
  else Some (utf16 uc, rest).

(** [QUtf8Functions::fromUtf8]: the character that starts with the byte
    [c] and goes on in [src]: its code units and the input after it.
    [None] is a decoding error: a byte that starts no character, a
    continuation byte that is missing, a code point the checks refuse. *)
Definition fromUtf8_char (c : ascii) (src : string)
  : option (list QChar * string) :=
  let b := Str.code c in
  if b <? 0x80 then Some ([b], src)
  else if b <=? 0xC1 then None
  else if b <? 0xE0 then
    match continuation src with
    | Some (x1, src1) => checked 0x80 ((b mod 32) * 64 + x1) src1
    | None => None
    end
  else if b <? 0xF0 then
    match continuation src with
    | Some (x1, src1) =>
        match continuation src1 with
        | Some (x2, src2) =>
            checked 0x800 (((b mod 16) * 64 + x1) * 64 + x2) src2
        | None => None
        end
    | None => None
    end
  else if b <? 0xF5 then
    match continuation src with
    | Some (x1, src1) =>
        match continuation src1 with
        | Some (x2, src2) =>
            match continuation src2 with
            | Some (x3, src3) =>
                checked 0x10000
                  ((((b mod 8) * 64 + x1) * 64 + x2) * 64 + x3) src3
            | None => None
            end
        | None => None
        end
    | None => None
    end
  else None.

(** The loop of [QUtf8::convertToUnicode]: character after character;
    on an error the replacement character is written and the decoding
    goes on with the next byte.  [fuel] bounds the characters read. *)
Fixpoint convertToUnicode (fuel : nat) (src : string) : QString :=
  match fuel, src with
  | S fuel', String c src' =>
      match fromUtf8_char c src' with
      | Some (units, rest) => (units ++ convertToUnicode fuel' rest)%list
      | None => ReplacementCharacter :: convertToUnicode fuel' src'
      end
  | _, _ => []
  end.

Definition decode (src : string) : QString :=
  convertToUnicode (String.length src) src.

(** The byte-order mark EF BB BF at the start of the input is skipped. *)
Definition skipBom (src : string) : string :=
  match src with
  | String a (String b (String c rest)) =>
      if (Str.code a =? 0xEF) && (Str.code b =? 0xBB) && (Str.code c =? 0xBF)
      then rest
      else src
  | _ => src
  end.

(** [QString( const char * )], which is [QString::fromUtf8]. *)
Definition fromUtf8 (s : string) : QString := decode (skipBom s).

(** [QUtf8::convertFromUnicode]: one to three bytes for a code unit,
    four for a surrogate pair; '?' for a surrogate that has no partner. *)
Fixpoint convertFromUnicode (uc : QString) : string :=
  match uc with
  | [] => EmptyString
  | u :: src =>
      if u <? 0x80 then String (Str.byte u) (convertFromUnicode src)
      else if u <? 0x800 then
        String (Str.byte (0xC0 + u / 64))
          (String (Str.byte (0x80 + u mod 64)) (convertFromUnicode src))
      else if negb (isSurrogate u) then
        String (Str.byte (0xE0 + u / 4096))
          (String (Str.byte (0x80 + (u / 64) mod 64))
             (String (Str.byte (0x80 + u mod 64)) (convertFromUnicode src)))
      else
        match src with
        | [] => "?"
        | low :: src' =>
            if isHighSurrogate u && isLowSurrogate low then
              let ucs4 := (u - 0xD800) * 1024 + (low - 0xDC00) + 0x10000 in
              String (Str.byte (0xF0 + ucs4 / 262144))
                (String (Str.byte (0x80 + (ucs4 / 4096) mod 64))
                   (String (Str.byte (0x80 + (ucs4 / 64) mod 64))
                      (String (Str.byte (0x80 + ucs4 mod 64))
                         (convertFromUnicode src'))))
            else String "?" (convertFromUnicode src)
        end
  end.

(** [QString::toStdString], which is [toUtf8]. *)
Definition toStdString (q : QString) : string := convertFromUnicode q.

(** The decoder finds no error in [src]: well-formed UTF-8. *)
Fixpoint wellFormed_fuel (fuel : nat) (src : string) : bool :=
  match src, fuel with
  | EmptyString, _ => true
  | String _ _, O => false
  | String c src', S fuel' =>
      match fromUtf8_char c src' with
      | Some (_, rest) => wellFormed_fuel fuel' rest
      | None => false
      end
  end.

Definition wellFormed (src : string) : bool :=
  wellFormed_fuel (String.length src) src.

(** [src] starts with the byte-order mark. *)
Definition startsWithBom (src : string) : bool :=
  match src with
  | String a (String b (String c _)) =>
      (Str.code a =? 0xEF) && (Str.code b =? 0xBB) && (Str.code c =? 0xBF)
  | _ => false
  end.

Fixpoint startsWith (needle s : QString) : bool :=
  match needle, s with
  | [], _ => true
  | _ :: _, [] => false
  | a :: needle', b :: s' => (a =? b) && startsWith needle' s'
  end.

(** [QString::indexOf( needle, from )] scanning to the right; the
    answer is the position of the first match, [-1] when there is none. *)
Fixpoint indexOf_from (s needle : QString) (from : Z) : Z :=
  if startsWith needle s then from
  else match s with
       | [] => -1
       | _ :: s' => indexOf_from s' needle (from + 1)
       end.

Definition indexOf (s needle : QString) : Z := indexOf_from s needle 0.

Definition size (s : QString) : Z := Z.of_nat (length s).

(** [QString::mid( position, n )]: [n] units from [position]; the null
    string when [position] is past the end; everything that is left
    when [n] is negative or larger than what is left. *)
Definition mid (s : QString) (position n : Z) : QString :=
  if position >? size s then []
  else if position <? 0 then
    if (n <? 0) || (n + position >=? size s) then s
    else if n + position <=? 0 then []
    else take (Z.to_nat (n + position)) s
  else if (n <? 0) || (n >? size s - position)
    then drop (Z.to_nat position) s
  else take (Z.to_nat n) (drop (Z.to_nat position) s).

(** [QString::split( sep )] with the default [KeepEmptyParts]: the
    pieces between separators, in order, empty ones included; one empty
    piece for the empty string. *)
Fixpoint split (sep : QChar) (s : QString) : list QString :=
  match s with
  | [] => [[]]
  | c :: s' =>
      if c =? sep then [] :: split sep s'
      else match split sep s' with
           | piece :: pieces => (c :: piece) :: pieces
           | [] => [[c]]
           end
  end.

(** [needle] occurs in [s]. *)
Definition occurs (needle s : QString) : Prop :=
  exists before after, s = (before ++ needle ++ after)%list.

End QStr.

(* ===================================================================== *)
(** ** [Core::Variable] *)
(* ===================================================================== *)

Module CoreVariable.

(** [struct retro_variable] of libretro.h: two C strings, either of
    which the plugin may leave null. *)
Record retro_variable := {
  rv_key : option string;
  rv_value : option string
}.

Record t := {
  m_key : string;
  m_value : string;
  m_description : string;
  m_choices : list string
}.

(** [Variable() {}] *)
Definition default : t :=
  {| m_key := ""; m_value := ""; m_description := ""; m_choices := [] |}.

(** The [foreach] loop of the constructor. *)
Definition append_choices (m_choices : list string)
    (_choices : list QStr.QString) : list string :=
  fold_left (fun acc choice => (acc ++ [QStr.toStdString choice])%list)
            _choices m_choices.

(** [Variable( const retro_variable *var )].  Assigning a null
    [var->key] to a [std::string] is undefined: [None].  A null
    [var->value] makes the null [QString], in which nothing is
    found. *)
Definition make (var : retro_variable) : option t :=
  match rv_key var with
  | None => None
  | Some k =>
      let valdesc :=
        match rv_value var with
        | Some v => QStr.fromUtf8 v
        | None => []
        end in
      let splitidx := QStr.indexOf valdesc (QStr.fromUtf8 "; ") in
      if negb (splitidx =? -1)%Z then
        let _choices :=
          QStr.split (QStr.QChar_of_char "|")
                     (QStr.mid valdesc (splitidx + 2) (-1)) in
        Some {| m_key := k;
                m_value := "";
                m_description :=
                  QStr.toStdString (QStr.mid valdesc 0 splitidx);
                m_choices := append_choices [] _choices |}
      else
        Some {| m_key := k; m_value := "";
                m_description := ""; m_choices := [] |}
  end.

Definition key (v : t) : string := m_key v.

Definition empty (s : string) : bool :=
  match s with EmptyString => true | String _ _ => false end.

(** [value] returns a reference: to the caller's [default_] or to
    the member [m_value]. *)
Inductive string_ref := ref_default_ | ref_m_value.

Definition value_ref (v : t) : string_ref :=
  if empty (m_value v) then ref_default_ else ref_m_value.

Definition deref (v : t) (default_ : string) (r : string_ref) : string :=
  match r with
  | ref_default_ => default_
  | ref_m_value => m_value v
  end.

(** [value( const std::string &default_ )] *)
Definition value (v : t) (default_ : string) : string :=
  deref v default_ (value_ref v).

(** [value()], whose default is the function's static empty string. *)
Definition value0 (v : t) : string := value v "".

Definition description (v : t) : string := m_description v.

Definition choices (v : t) : list string := m_choices v.

Definition isValid (v : t) : bool := negb (empty (m_key v)).

End CoreVariable.

(* ===================================================================== *)
(** ** [struct LibretroSymbols] *)
(* ===================================================================== *)

Module LibretroSymbols.

(** The function-pointer members, in the order of their declaration. *)
Inductive member :=
  (* Libretro core functions *)
  | retro_api_version
  | retro_cheat_reset
  | retro_cheat_set
  | retro_deinit
  | retro_get_memory_data
  | retro_get_memory_size
  | retro_get_region
  | retro_get_system_av_info
  | retro_get_system_info
  | retro_init
  | retro_load_game
  | retro_load_game_special
  | retro_reset
  | retro_run
  | retro_serialize
  | retro_serialize_size
  | retro_unload_game
  | retro_unserialize
  (* Frontend-defined callbacks *)
  | retro_set_audio_sample
  | retro_set_audio_sample_batch
  | retro_set_controller_port_device
  | retro_set_environment
  | retro_set_input_poll
  | retro_set_input_state
  | retro_set_video_refresh
  (* Optional core-defined callbacks *)
  | retro_audio
  | retro_audio_set_state
  | retro_frame_time
  | retro_keyboard_event.

#[global] Instance member_eq_dec : EqDecision member.
Proof. solve_decision. Defined.

Definition mandatory_entry_points : list member :=
  [ retro_api_version; retro_cheat_reset; retro_cheat_set; retro_deinit;
    retro_get_memory_data; retro_get_memory_size; retro_get_region;
    retro_get_system_av_info; retro_get_system_info; retro_init;
    retro_load_game; retro_load_game_special; retro_reset; retro_run;
    retro_serialize; retro_serialize_size; retro_unload_game;
    retro_unserialize ].

Definition frontend_callbacks : list member :=
  [ retro_set_audio_sample; retro_set_audio_sample_batch;
    retro_set_controller_port_device; retro_set_environment;
    retro_set_input_poll; retro_set_input_state; retro_set_video_refresh ].

Definition optional_callbacks : list member :=
  [ retro_audio; retro_audio_set_state; retro_frame_time;
    retro_keyboard_event ].

Definition members : list member :=
  (mandatory_entry_points ++ frontend_callbacks ++ optional_callbacks)%list.

(** A function pointer: the address of the resolved symbol, or null. *)
Definition fnptr := option Z.

Definition nullptr : fnptr := None.

(** The struct: one pointer per member. *)
Definition t := member -> fnptr.

(** [symbols.m = p;] *)
Definition assign (m : member) (p : fnptr) (symbols : t) : t :=
  fun m' => if decide (m' = m) then p else symbols m'.

(** The members [clear()] assigns, in the order of its statements. *)
Definition clear_assignments : list member :=
  [ retro_api_version; retro_cheat_reset; retro_cheat_set; retro_deinit;
    retro_init; retro_get_memory_data; retro_get_memory_size;
    retro_get_region; retro_get_system_av_info; retro_get_system_info;
    retro_load_game; retro_load_game_special; retro_reset; retro_run;
    retro_serialize; retro_serialize_size; retro_unload_game;
    retro_unserialize;

    retro_set_audio_sample; retro_set_audio_sample_batch;
    retro_set_controller_port_device; retro_set_environment;
    retro_set_input_poll; retro_set_input_state; retro_set_video_refresh;

    retro_audio; retro_audio_set_state; retro_frame_time;
    retro_keyboard_event ].

(** [void clear()] *)
Definition clear (symbols : t) : t :=
  fold_left (fun s m => assign m nullptr s) clear_assignments symbols.

(** [#name] in [resolved_sym]: the member's own identifier. *)
Definition member_name (m : member) : string :=
  match m with
  | retro_api_version => "retro_api_version"
  | retro_cheat_reset => "retro_cheat_reset"
  | retro_cheat_set => "retro_cheat_set"
  | retro_deinit => "retro_deinit"
  | retro_get_memory_data => "retro_get_memory_data"
  | retro_get_memory_size => "retro_get_memory_size"
  | retro_get_region => "retro_get_region"
  | retro_get_system_av_info => "retro_get_system_av_info"
  | retro_get_system_info => "retro_get_system_info"
  | retro_init => "retro_init"
  | retro_load_game => "retro_load_game"
  | retro_load_game_special => "retro_load_game_special"
  | retro_reset => "retro_reset"
  | retro_run => "retro_run"
  | retro_serialize => "retro_serialize"
  | retro_serialize_size => "retro_serialize_size"
  | retro_unload_game => "retro_unload_game"
  | retro_unserialize => "retro_unserialize"
  | retro_set_audio_sample => "retro_set_audio_sample"
  | retro_set_audio_sample_batch => "retro_set_audio_sample_batch"
  | retro_set_controller_port_device => "retro_set_controller_port_device"
  | retro_set_environment => "retro_set_environment"
  | retro_set_input_poll => "retro_set_input_poll"
  | retro_set_input_state => "retro_set_input_state"
  | retro_set_video_refresh => "retro_set_video_refresh"
  | retro_audio => "retro_audio"
  | retro_audio_set_state => "retro_audio_set_state"
  | retro_frame_time => "retro_frame_time"
  | retro_keyboard_event => "retro_keyboard_event"
  end.

(** [QLibrary::resolve]: the address of the exported symbol of that
    name, null when the library has none. *)
Definition QLibrary := string -> fnptr.

(** [resolved_sym( name )]:
    [symbols.name = libretroCore.resolve( #name );] *)
Definition resolved_sym (libretroCore : QLibrary) (name : member)
    (symbols : t) : t :=
  assign name (libretroCore (member_name name)) symbols.

(** [resolved_sym] for each of [names], one after the other. *)
Definition resolve_each (libretroCore : QLibrary) (names : list member)
    (symbols : t) : t :=
  fold_left (fun s name => resolved_sym libretroCore name s) names symbols.

End LibretroSymbols.

(* ===================================================================== *)
(** ** [class Core]: states, errors and the state-change payload *)
(* ===================================================================== *)

Module Core.

Inductive State :=
  | STATEUNINITIALIZED
  | STATEREADY
  | STATEFINISHED
  | STATEERROR.

Inductive Error :=
  | CORENOERROR
  | CORELOAD
  | CORENOTLIBRARY
  | CORENOTFOUND
  | COREACCESSDENIED
  | COREUNKNOWNERROR
  | GAMENOTFOUND
  | GAMEACCESSDENIED
  | GAMEUNKNOWNERROR.

#[global] Instance Error_eq_dec : EqDecision Error.
Proof. solve_decision. Defined.

(** The enumerators of [Error], in order; an [enum : int] numbers them
    from zero. *)
Definition errors : list Error :=
  [ CORENOERROR; CORELOAD; CORENOTLIBRARY; CORENOTFOUND; COREACCESSDENIED;
    COREUNKNOWNERROR; GAMENOTFOUND; GAMEACCESSDENIED; GAMEUNKNOWNERROR ].

Definition Error_to_int (e : Error) : Z :=
  match e with
  | CORENOERROR => 0
  | CORELOAD => 1
  | CORENOTLIBRARY => 2
  | CORENOTFOUND => 3
  | COREACCESSDENIED => 4
  | COREUNKNOWNERROR => 5
  | GAMENOTFOUND => 6
  | GAMEACCESSDENIED => 7
  | GAMEUNKNOWNERROR => 8
  end.

Inductive family := core_load | content_load.

Inductive subkind :=
  | not_found
  | access_denied
  | unknown_filesystem_error
  | invalid_library_format
  | generic_load_failure.

#[global] Instance family_eq_dec : EqDecision family.
Proof. solve_decision. Defined.

#[global] Instance subkind_eq_dec : EqDecision subkind.
Proof. solve_decision. Defined.

(** What each enumerator stands for, as the comment above it says:
    [None] for "Everything's okay!". *)
Definition classify (e : Error) : option (family * subkind) :=
  match e with
  | CORENOERROR => None
  | CORELOAD => Some (core_load, generic_load_failure)
  | CORENOTLIBRARY => Some (core_load, invalid_library_format)
  | CORENOTFOUND => Some (core_load, not_found)
  | COREACCESSDENIED => Some (core_load, access_denied)
  | COREUNKNOWNERROR => Some (core_load, unknown_filesystem_error)
  | GAMENOTFOUND => Some (content_load, not_found)
  | GAMEACCESSDENIED => Some (content_load, access_denied)
  | GAMEUNKNOWNERROR => Some (content_load, unknown_filesystem_error)
  end.

Definition family_of (e : Error) : option family :=
  match classify e with
  | Some (f, _) => Some f
  | None => None
  end.

(** The enumerators of one family. *)
Definition errors_of (f : family) : list Error :=
  filter (fun e => family_of e = Some f) errors.

(** [enum retro_pixel_format] of libretro.h. *)
Inductive retro_pixel_format :=
  | RETRO_PIXEL_FORMAT_0RGB1555
  | RETRO_PIXEL_FORMAT_XRGB8888
  | RETRO_PIXEL_FORMAT_RGB565.

(** [avInfoStruct]; the [retro_system_av_info *] is an address. *)
Record avInfoStruct := {
  avInfo : Z;
  pixelFormat : retro_pixel_format
}.

(** The union [stateChangedData], by the member that was written. *)
Inductive stateChangedData :=
  | data_error (error : Error)
  | data_avInfo (av : avInfoStruct).

Inductive contents :=
  | nothing
  | av_info_and_pixel_format
  | error_enum.

(** "Contents of data", from the comment that heads the file. *)
Definition contents_of_data (s : State) : contents :=
  match s with
  | STATEUNINITIALIZED => nothing
  | STATEREADY => av_info_and_pixel_format
  | STATEFINISHED => nothing
  | STATEERROR => error_enum
  end.

(** One [signalStateChanged( newState, data )]; [None] when the union
    carries nothing. *)
Record notification := {
  newState : State;
  data : option stateChangedData
}.

Definition contents_of (d : option stateChangedData) : contents :=
  match d with
  | None => nothing
  | Some (data_avInfo _) => av_info_and_pixel_format
  | Some (data_error _) => error_enum
  end.

End Core.

(* ===================================================================== *)
(** ** The lifecycle (the emitting code is in core.cpp) *)
(* ===================================================================== *)

Module Lifecycle.
Import Core.

(** Modelled from the spec: the adapter's state together with what it
    negotiated or failed with; core.cpp, which keeps them, is missing. *)
Inductive adapter :=
  | uninitialized
  | ready (av : avInfoStruct)
  | finished
  | failed (e : Error).

Definition state_of (a : adapter) : State :=
  match a with
  | uninitialized => STATEUNINITIALIZED
  | ready _ => STATEREADY
  | finished => STATEFINISHED
  | failed _ => STATEERROR
  end.

(** Modelled from the spec: what drives the transitions of section 4.2
    (a load that completes the negotiation, a load that fails, one frame,
    an explicit unload, an unrecoverable fault); the slots of core.cpp
    that receive them are missing. *)
Inductive request :=
  | load_completed (av : avInfoStruct)
  | load_failed (e : Error)
  | run_frame
  | unload
  | fault (e : Error).

(** Modelled from the spec: "nothing for Uninitialized/Finished; the
    negotiated AVInfo+pixel-format for Ready; the specific Error value
    for Error"; the emit sites of core.cpp are missing. *)
Definition notify (a : adapter) : notification :=
  match a with
  | uninitialized => {| newState := STATEUNINITIALIZED; data := None |}
  | ready av => {| newState := STATEREADY; data := Some (data_avInfo av) |}
  | finished => {| newState := STATEFINISHED; data := None |}
  | failed e => {| newState := STATEERROR; data := Some (data_error e) |}
  end.

(** Modelled from the spec: the transitions of section 4.2, core.cpp
    being missing.  A load is taken from Uninitialized and, as re-entry,
    from Finished and Error; a frame and an unload only in Ready; a fault
    in any state.  [None]: the request is not a transition of the state. *)
Definition target (a : adapter) (r : request) : option adapter :=
  match r, a with
  | load_completed av, (uninitialized | finished | failed _) => Some (ready av)
  | load_failed e, (uninitialized | finished | failed _) => Some (failed e)
  | run_frame, ready av => Some (ready av)
  | unload, ready _ => Some finished
  | fault e, _ => Some (failed e)
  | _, _ => None
  end.

(** Modelled from the spec: "Every transition emits a state-change
    notification"; the result is the new adapter and what was emitted. *)
Definition transition (a : adapter) (r : request)
  : option (adapter * list notification) :=
  match target a r with
  | Some a' => Some (a', [notify a'])
  | None => None
  end.

End Lifecycle.

(* ===================================================================== *)
(** ** The buffer pools (the callbacks that fill them are in core.cpp) *)
(* ===================================================================== *)

Module BufferPool.

(** The bound of [audioBufferPool[30]] and of [videoBufferPool[30]]. *)
Definition POOL_SIZE : Z := 30.

(** One frame of interleaved [int16_t] samples; one frame of [uchar]. *)
Definition audio_frame := list Z.
Definition video_frame := list Z.

(** A pool and its index ([audioBufferPool] with [audioBufferPoolIndex],
    [videoBufferPool] with [videoBufferPoolIndex]); a slot is what its
    buffer holds. *)
Record pool (Frame : Type) := {
  slots : list Frame;
  index : Z
}.
Arguments slots {Frame} _.
Arguments index {Frame} _.

Section Produce.
Context {Frame : Type}.

(** Modelled from the spec: the pool before the first frame, every
    buffer blank and the index at slot 0; the constructor of core.cpp is
    missing. *)
Definition initial (blank : Frame) : pool Frame :=
  {| slots := replicate (Z.to_nat POOL_SIZE) blank; index := 0 |}.

(** Modelled from the spec: the frame goes into the current slot and the
    index advances, "cyclic modulo 30", overwriting when the consumer is
    a full pool behind; the audio and video callbacks of core.cpp are
    missing. *)
Definition produce (p : pool Frame) (frame : Frame) : pool Frame :=
  {| slots := <[Z.to_nat (index p) := frame]> (slots p);
     index := (index p + 1) mod POOL_SIZE |}.

(** Frames produced one after the other, none consumed. *)
Definition produce_all (p : pool Frame) (frames : list Frame) : pool Frame :=
  fold_left produce frames p.

Definition well_formed (p : pool Frame) : Prop :=
  Z.of_nat (length (slots p)) = POOL_SIZE /\ (0 <= index p < POOL_SIZE)%Z.

End Produce.

Definition audioBufferPool := pool audio_frame.
Definition videoBufferPool := pool video_frame.

End BufferPool.

(* ===================================================================== *)
(** ** SRAM ([saveSRAM] and [loadSRAM] are defined in core.cpp) *)
(* ===================================================================== *)

Module SRAM.

Definition bytes := list Byte.byte.

(** Modelled from the spec: [saveSRAM], whose body is missing: "a zero
    size means not supported, skip", otherwise "copy the full region
    verbatim" to the save path.  The file is [None] while it does not
    exist. *)
Definition saveSRAM (region : bytes) (file : option bytes) : option bytes :=
  if (Z.of_nat (length region) =? 0)%Z then file else Some region.

(** Modelled from the spec: [loadSRAM], whose body is missing: "read the
    same path (if present) and copy it back into the plugin's reported
    memory region only if the sizes match exactly"; a mismatch is logged
    and skipped. *)
Definition loadSRAM (file : option bytes) (region : bytes) : bytes :=
  match file with
  | None => region
  | Some saved =>
      if (Z.of_nat (length saved) =? Z.of_nat (length region))%Z
      then saved
      else region
  end.

End SRAM.

(* ===================================================================== *)
(** ** The process-wide pointer [static Core *core] *)
(* ===================================================================== *)

Module Registry.

(** An adapter instance, by its address. *)
Definition instance := Z.

(** The static callbacks the header declares. *)
Inductive callback :=
  | audioSampleCallback
  | audioSampleBatchCallback
  | environmentCallback
  | inputPollCallback
  | logCallback
  | inputStateCallback
  | videoRefreshCallback.

(** [core] is the static pointer of the header, null or one instance;
    [received] is, per instance, the callbacks that reached it, latest
    first. *)
Record process := {
  core : option instance;
  received : instance -> list callback
}.

(** Modelled from the spec: "every registered callback routes through"
    the one pointer; the callback bodies of core.cpp are missing. *)
Definition invoke (cb : callback) (p : process) : process :=
  match core p with
  | None => p
  | Some active =>
      {| core := core p;
         received := fun i => if decide (i = active)
                              then cb :: received p i
                              else received p i |}
  end.

(** Modelled from the spec: the pointer is "set atomically on load-begin",
    "with load attempts while a slot is occupied explicitly rejected";
    the load path of core.cpp is missing.  [None] is the rejection; the
    instance that already holds the pointer may load again. *)
Definition load (i : instance) (p : process) : option process :=
  match core p with
  | None => Some {| core := Some i; received := received p |}
  | Some active => if decide (active = i) then Some p else None
  end.

(** Modelled from the spec: the pointer is "cleared on unload/teardown";
    the destructor of core.cpp is missing. *)
Definition unload (i : instance) (p : process) : process :=
  match core p with
  | Some active =>
      if decide (active = i)
      then {| core := None; received := received p |}
      else p
  | None => p
  end.

End Registry.

(* ===================================================================== *)
(** * Properties *)
(* ===================================================================== *)

(** ** Byte strings *)

Section StringFacts.
Import Str.

Lemma append_assoc (a b c : string) : (a ++ b) ++ c = a ++ (b ++ c).
Proof. induction a as [|x a IH]; simpl; [reflexivity | now rewrite IH]. Qed.

Lemma length_append (a b : string) :
  String.length (a ++ b) = (String.length a + String.length b)%nat.
Proof. induction a as [|x a IH]; simpl; [reflexivity | now rewrite IH]. Qed.

Lemma startsWith_append (needle rest : string) :
  startsWith needle (needle ++ rest) = true.
Proof.
  induction needle as [|a needle IH]; simpl; [reflexivity|].
  now rewrite Ascii.eqb_refl, IH.
Qed.

Lemma startsWith_inv (needle s : string) :
  startsWith needle s = true -> exists rest, s = needle ++ rest.
Proof.
  revert s; induction needle as [|a needle IH]; intros s H.
  - now exists s.
  - destruct s as [|b s]; simpl in H; [discriminate|].
    apply andb_true_iff in H as [Hab Hrest].
    apply Ascii.eqb_eq in Hab; subst b.
    destruct (IH _ Hrest) as [rest ->].
    now exists rest.
Qed.

Lemma occurs_tail (needle : string) (c : ascii) (s : string) :
  occurs needle (String c s) ->
  startsWith needle (String c s) = true \/ occurs needle s.
Proof.
  intros [before [after H]].
  destruct before as [|x before]; simpl in H.
  - left. rewrite H. apply startsWith_append.
  - right. injection H as _ H. now exists before, after.
Qed.

Lemma indexOf_from_absent (needle s : string) (from : Z) :
  (0 <= from)%Z -> indexOf_from s needle from = (-1)%Z -> ~ occurs needle s.
Proof.
  revert from; induction s as [|c s IH]; intros from Hfrom H Hocc.
  - simpl in H. destruct Hocc as [before [after E]].
    destruct before; simpl in E.
    + rewrite E, startsWith_append in H. lia.
    + discriminate.
  - simpl in H.
    destruct (startsWith needle (String c s)) eqn:Hsw; [lia|].
    apply occurs_tail in Hocc as [Hsw' | Hocc]; [congruence|].
    apply (IH (from + 1)%Z); [lia | assumption | assumption].
Qed.

Lemma indexOf_from_found (needle s : string) (from i : Z) :
  (0 <= from)%Z -> indexOf_from s needle from = i -> i <> (-1)%Z ->
  exists before after,
    s = before ++ needle ++ after /\
    i = (from + Z.of_nat (String.length before))%Z /\
    forall before' after', s = before' ++ needle ++ after' ->
                           (String.length before <= String.length before')%nat.
Proof.
  revert from; induction s as [|c s IH]; intros from Hfrom H Hi.
  - simpl in H. destruct (startsWith needle "") eqn:Hsw; [|congruence].
    apply startsWith_inv in Hsw as [rest E].
    exists "", rest. simpl. repeat split; [assumption | lia | intros; lia].
  - simpl in H. destruct (startsWith needle (String c s)) eqn:Hsw.
    + apply startsWith_inv in Hsw as [rest E].
      exists "", rest. simpl. repeat split; [assumption | lia | intros; lia].
    + destruct (IH (from + 1)%Z ltac:(lia) H Hi)
        as [before [after [E [Hidx Hmin]]]].
      exists (String c before), after. simpl.
      repeat split; [now rewrite E | lia |].
      intros before' after' E'.
      destruct before' as [|x before']; simpl in E'.
      * rewrite E', startsWith_append in Hsw. discriminate.
      * injection E' as _ E'. specialize (Hmin _ _ E'). simpl. lia.
Qed.

Lemma split_not_nil (sep : ascii) (s : string) : split sep s <> [].
Proof.
  destruct s as [|c s]; simpl; [discriminate|].
  destruct (Ascii.eqb c sep); [discriminate|].
  destruct (split sep s); discriminate.
Qed.

Lemma join_split (sep : ascii) (s : string) : join sep (split sep s) = s.
Proof.
  induction s as [|c s IH]; [reflexivity|]. simpl.
  destruct (Ascii.eqb c sep) eqn:Hc.
  - apply Ascii.eqb_eq in Hc; subst c.
    pose proof (split_not_nil sep s) as Hne.
    destruct (split sep s) as [|p ps]; [contradiction|].
    cbn [join] in *. simpl. now rewrite IH.
  - pose proof (split_not_nil sep s) as Hne.
    destruct (split sep s) as [|p ps]; [contradiction|].
    destruct ps as [|q ps]; cbn [join] in *; simpl; now rewrite IH.
Qed.

Lemma split_pieces (sep : ascii) (s : string) :
  Forall (fun piece => contains_char sep piece = false) (split sep s).
Proof.
  induction s as [|c s IH]; simpl.
  - now constructor.
  - destruct (Ascii.eqb c sep) eqn:Hc.
    + now constructor.
    + destruct (split sep s) as [|p ps].
      * constructor; [simpl; now rewrite Hc | constructor].
      * inversion IH; subst. constructor; [simpl; now rewrite Hc | assumption].
Qed.

Lemma split_piece_then (sep : ascii) (piece rest : string) :
  contains_char sep piece = false ->
  split sep (piece ++ String sep rest) = piece :: split sep rest.
Proof.
  induction piece as [|c piece IH]; intros H; simpl.
  - now rewrite Ascii.eqb_refl.
  - simpl in H. apply orb_false_iff in H as [Hc Hp].
    now rewrite Hc, (IH Hp).
Qed.

Lemma split_piece (sep : ascii) (piece : string) :
  contains_char sep piece = false -> split sep piece = [piece].
Proof.
  induction piece as [|c piece IH]; intros H; simpl; [reflexivity|].
  simpl in H. apply orb_false_iff in H as [Hc Hp].
  now rewrite Hc, (IH Hp).
Qed.

Lemma split_join (sep : ascii) (pieces : list string) :
  pieces <> [] ->
  Forall (fun piece => contains_char sep piece = false) pieces ->
  split sep (join sep pieces) = pieces.
Proof.
  induction pieces as [|p ps IH]; intros Hne Hall; [contradiction|].
  inversion Hall as [|? ? Hp Hps]; subst.
  destruct ps as [|q ps].
  - simpl. now apply split_piece.
  - cbn [join]. rewrite (split_piece_then _ _ _ Hp).
    f_equal. apply IH; [discriminate | assumption].
Qed.

End StringFacts.

(** ** Code-unit strings *)

Section UnitFacts.
Import QStr.

Lemma q_startsWith_app (needle rest : QString) :
  startsWith needle (needle ++ rest)%list = true.
Proof.
  induction needle as [|a needle IH]; simpl; [reflexivity|].
  now rewrite Z.eqb_refl, IH.
Qed.

Lemma q_startsWith_inv (needle s : QString) :
  startsWith needle s = true -> exists rest, s = (needle ++ rest)%list.
Proof.
  revert s; induction needle as [|a needle IH]; intros s H.
  - now exists s.
  - destruct s as [|b s]; simpl in H; [discriminate|].
    apply andb_true_iff in H as [Hab Hrest].
    apply Z.eqb_eq in Hab; subst b.
    destruct (IH _ Hrest) as [rest ->].
    now exists rest.
Qed.

Lemma q_occurs_tail (needle : QString) (c : QChar) (s : QString) :
  occurs needle (c :: s) ->
  startsWith needle (c :: s) = true \/ occurs needle s.
Proof.
  intros [before [after H]].
  destruct before as [|x before]; simpl in H.
  - left. rewrite H. apply q_startsWith_app.
  - right. injection H as _ H. now exists before, after.
Qed.

Lemma q_indexOf_from_absent (needle s : QString) (from : Z) :
  (0 <= from)%Z -> indexOf_from s needle from = (-1)%Z -> ~ occurs needle s.
Proof.
  revert from; induction s as [|c s IH]; intros from Hfrom H Hocc.
  - simpl in H. destruct Hocc as [before [after E]].
    destruct before; simpl in E.
    + rewrite E, q_startsWith_app in H. lia.
    + discriminate.
  - simpl in H.
    destruct (startsWith needle (c :: s)) eqn:Hsw; [lia|].
    apply q_occurs_tail in Hocc as [Hsw' | Hocc]; [congruence|].
    apply (IH (from + 1)%Z); [lia | assumption | assumption].
Qed.

Lemma q_indexOf_from_found (needle s : QString) (from i : Z) :
  (0 <= from)%Z -> indexOf_from s needle from = i -> i <> (-1)%Z ->
  exists before after,
    s = (before ++ needle ++ after)%list /\
    i = (from + Z.of_nat (length before))%Z.
Proof.
  revert from; induction s as [|c s IH]; intros from Hfrom H Hi.
  - simpl in H. destruct (startsWith needle []) eqn:Hsw; [|congruence].
    apply q_startsWith_inv in Hsw as [rest E].
    exists [], rest. simpl. split; [assumption | lia].
  - simpl in H. destruct (startsWith needle (c :: s)) eqn:Hsw.
    + apply q_startsWith_inv in Hsw as [rest E].
      exists [], rest. simpl. split; [assumption | lia].
    + destruct (IH (from + 1)%Z ltac:(lia) H Hi) as [before [after [E Hidx]]].
      exists (c :: before), after. simpl.
      split; [now rewrite E | lia].
Qed.

Lemma q_indexOf_absent (needle s : QString) :
  ~ occurs needle s -> indexOf s needle = (-1)%Z.
Proof.
  intros Hno. destruct (Z.eq_dec (indexOf s needle) (-1)) as [E | Hi]; [exact E|].
  destruct (q_indexOf_from_found needle s 0 _ ltac:(lia) eq_refl Hi)
    as [before [after [E _]]].
  exfalso. apply Hno. now exists before, after.
Qed.

(** The first of two different units [x], [y] that follow a string in
    which [x; y] does not occur is where [x; y] is first found. *)
Lemma q_indexOf_from_first (x y : QChar) (before after : QString) (from : Z) :
  x <> y -> ~ occurs [x; y] before ->
  indexOf_from (before ++ x :: y :: after)%list [x; y] from
  = (from + Z.of_nat (length before))%Z.
Proof.
  intros Hxy. revert from.
  induction before as [|c before IH]; intros from Hno.
  - simpl. rewrite !Z.eqb_refl. simpl. lia.
  - assert (Hno' : ~ occurs [x; y] before).
    { intros [b [a E]]. apply Hno. exists (c :: b), a. simpl. now rewrite E. }
    cbn [app indexOf_from].
    destruct (startsWith [x; y] (c :: before ++ x :: y :: after)%list) eqn:Hsw.
    + exfalso. simpl in Hsw.
      destruct (Z.eqb_spec x c) as [<-|]; [|discriminate].
      destruct before as [|c' before]; simpl in Hsw.
      * destruct (Z.eqb_spec y x); [congruence | discriminate].
      * destruct (Z.eqb_spec y c') as [<-|]; [|discriminate].
        apply Hno. now exists [], before.
    + rewrite (IH (from + 1)%Z Hno'). simpl length. lia.
Qed.

Lemma q_mid_left (a b : QString) :
  mid (a ++ b)%list 0 (Z.of_nat (length a)) = a.
Proof.
  unfold mid, size. rewrite length_app.
  replace (0 >? _)%Z with false by lia.
  replace (0 <? 0)%Z with false by lia.
  replace (Z.of_nat (length a) <? 0)%Z with false by lia.
  replace (Z.of_nat (length a) >? _)%Z with false by lia.
  cbn [orb]. change (Z.to_nat 0) with 0%nat.
  rewrite drop_0, Nat2Z.id. apply take_app_length.
Qed.

Lemma q_mid_right (a b : QString) :
  mid (a ++ b)%list (Z.of_nat (length a)) (-1) = b.
Proof.
  unfold mid, size. rewrite length_app.
  replace (Z.of_nat (length a) >? _)%Z with false by lia.
  replace (Z.of_nat (length a) <? 0)%Z with false by lia.
  cbn [orb]. rewrite Nat2Z.id. apply drop_app_length.
Qed.

Lemma q_split_piece_then (sep : QChar) (piece rest : QString) :
  ~ In sep piece ->
  split sep (piece ++ sep :: rest)%list = piece :: split sep rest.
Proof.
  induction piece as [|c piece IH]; intros H; simpl.
  - now rewrite Z.eqb_refl.
  - destruct (Z.eqb_spec c sep) as [->|_]; [exfalso; apply H; now left|].
    rewrite IH; [reflexivity|]. intros Hin. apply H. now right.
Qed.

Lemma q_split_piece (sep : QChar) (piece : QString) :
  ~ In sep piece -> split sep piece = [piece].
Proof.
  induction piece as [|c piece IH]; intros H; simpl; [reflexivity|].
  destruct (Z.eqb_spec c sep) as [->|_]; [exfalso; apply H; now left|].
  rewrite IH; [reflexivity|]. intros Hin. apply H. now right.
Qed.

End UnitFacts.

(** ** The UTF-8 decoder *)

Section DecoderFacts.
Import Str QStr.

Lemma code_range (c : ascii) : (0 <= code c < 256)%Z.
Proof. unfold code. pose proof (N_ascii_bounded c). lia. Qed.

Lemma byte_code (c : ascii) : byte (code c) = c.
Proof. unfold byte, code. rewrite N2Z.id. apply ascii_N_embedding. Qed.

Lemma byte_eq (c : ascii) (z : Z) : z = code c -> byte z = c.
Proof. intros ->. apply byte_code. Qed.

Lemma code_inj (a b : ascii) : code a = code b -> a = b.
Proof. intros H. rewrite <- (byte_code a), <- (byte_code b). now rewrite H. Qed.

Lemma continuation_inv (src : string) (x : Z) (rest : string) :
  continuation src = Some (x, rest) ->
  exists c, src = String c rest /\ (128 <= code c < 192)%Z /\
            x = (code c mod 64)%Z.
Proof.
  destruct src as [|c src]; simpl; [discriminate|].
  unfold isContinuationByte.
  destruct ((128 <=? code c)%Z && (code c <? 192)%Z) eqn:H; [|discriminate].
  intros E; injection E as <- <-. exists c. repeat split; lia.
Qed.

Lemma continuation_app_ascii (a : string) (c : ascii) (b : string) :
  (code c < 128)%Z ->
  continuation (a ++ String c b) =
  match continuation a with
  | Some (x, rest) => Some (x, rest ++ String c b)
  | None => None
  end.
Proof.
  intros Hc. destruct a as [|a0 a]; simpl.
  - unfold isContinuationByte.
    now replace (128 <=? code c)%Z with false by lia.
  - now destruct (isContinuationByte (code a0)).
Qed.

Lemma checked_app (min_uc uc : Z) (rest tail : string) :
  checked min_uc uc (rest ++ tail) =
  match checked min_uc uc rest with
  | Some (units, r) => Some (units, r ++ tail)
  | None => None
  end.
Proof. unfold checked. now destruct (_ || _ || _). Qed.

(** An ASCII byte further on in the input changes nothing in what the
    decoder makes of the bytes before it. *)
Lemma fromUtf8_char_app_ascii (c0 : ascii) (a : string) (c : ascii)
    (b : string) :
  (code c < 128)%Z ->
  fromUtf8_char c0 (a ++ String c b) =
  match fromUtf8_char c0 a with
  | Some (units, rest) => Some (units, rest ++ String c b)
  | None => None
  end.
Proof.
  intros Hc. unfold fromUtf8_char.
  repeat match goal with
         | |- context [if ?t then _ else _] => destruct t; [reflexivity|]
         | |- context [if ?t then _ else _] => destruct t
         end; try reflexivity;
  repeat (rewrite (continuation_app_ascii _ c b Hc);
          match goal with
          | |- context [continuation ?s] =>
              destruct (continuation s) as [[? ?]|]; [|reflexivity]
          end);
  apply checked_app.
Qed.

Lemma checked_inv (min_uc uc : Z) (rest : string) (units : list QChar)
    (rest' : string) :
  checked min_uc uc rest = Some (units, rest') ->
  rest' = rest /\ units = utf16 uc /\ (min_uc <= uc <= 0x10FFFF)%Z /\
  isSurrogate uc = false.
Proof.
  unfold checked, LastValidCodePoint.
  destruct (uc <? min_uc)%Z eqn:H1; [discriminate|].
  destruct (isSurrogate uc) eqn:H2; [discriminate|].
  destruct (uc >? 1114111)%Z eqn:H3; [discriminate|].
  simpl. intros E; injection E as <- <-. repeat split; lia.
Qed.

(** What one step of the decoder gives: an ASCII byte as it is; or a
    character of two to four bytes, whose units are all past ASCII. *)
Lemma fromUtf8_char_inv (c : ascii) (src : string) (units : list QChar)
    (rest : string) :
  fromUtf8_char c src = Some (units, rest) ->
  ((code c < 128)%Z /\ units = [code c] /\ rest = src) \/
  ((128 <= code c)%Z /\ units <> [] /\
   Forall (fun u => (128 <= u)%Z) units /\
   exists consumed, src = consumed ++ rest).
Proof.
  unfold fromUtf8_char. intros H.
  destruct (code c <? 128)%Z eqn:Hascii.
  { injection H as <- <-. left. repeat split. lia. }
  right. split; [lia|].
  assert (Hunits : forall min_uc uc r,
             (128 <= min_uc)%Z ->
             checked min_uc uc r = Some (units, rest) ->
             units <> [] /\ Forall (fun u => (128 <= u)%Z) units /\ rest = r).
  { intros min_uc uc r Hmin Hch.
    apply checked_inv in Hch as (-> & -> & Hrange & _).
    unfold utf16. destruct (uc <? 65536)%Z eqn:Hbmp.
    - repeat split; [discriminate|]. constructor; [lia | constructor].
    - repeat split; [discriminate|].
      constructor; [|constructor; [|constructor]];
        Z.div_mod_to_equations; lia. }
  destruct (code c <=? 193)%Z; [discriminate|].
  destruct (code c <? 224)%Z.
  { destruct (continuation src) as [[x1 s1]|] eqn:H1; [|discriminate].
    apply continuation_inv in H1 as (c1 & -> & _ & _).
    destruct (Hunits 128%Z _ _ ltac:(lia) H) as (Hne & Hall & ->).
    repeat split; try assumption. now exists (String c1 ""). }
  destruct (code c <? 240)%Z.
  { destruct (continuation src) as [[x1 s1]|] eqn:H1; [|discriminate].
    apply continuation_inv in H1 as (c1 & -> & _ & _).
    destruct (continuation s1) as [[x2 s2]|] eqn:H2; [|discriminate].
    apply continuation_inv in H2 as (c2 & -> & _ & _).
    destruct (Hunits 2048%Z _ _ ltac:(lia) H) as (Hne & Hall & ->).
    repeat split; try assumption. now exists (String c1 (String c2 "")). }
  destruct (code c <? 245)%Z; [|discriminate].
  destruct (continuation src) as [[x1 s1]|] eqn:H1; [|discriminate].
  apply continuation_inv in H1 as (c1 & -> & _ & _).
  destruct (continuation s1) as [[x2 s2]|] eqn:H2; [|discriminate].
  apply continuation_inv in H2 as (c2 & -> & _ & _).
  destruct (continuation s2) as [[x3 s3]|] eqn:H3; [|discriminate].
  apply continuation_inv in H3 as (c3 & -> & _ & _).
  destruct (Hunits 65536%Z _ _ ltac:(lia) H) as (Hne & Hall & ->).
  repeat split; try assumption.
  now exists (String c1 (String c2 (String c3 ""))).
Qed.

Lemma fromUtf8_char_rest (c : ascii) (src : string) (units : list QChar)
    (rest : string) :
  fromUtf8_char c src = Some (units, rest) ->
  exists consumed, src = consumed ++ rest.
Proof.
  intros H. apply fromUtf8_char_inv in H as [(_ & _ & ->) | (_ & _ & _ & H)].
  - now exists "".
  - exact H.
Qed.

Lemma fromUtf8_char_shorter (c : ascii) (src : string) (units : list QChar)
    (rest : string) :
  fromUtf8_char c src = Some (units, rest) ->
  (String.length rest <= String.length src)%nat.
Proof.
  intros H. apply fromUtf8_char_rest in H as [consumed ->].
  rewrite length_append. lia.
Qed.

Lemma convertToUnicode_fuel (n m : nat) (src : string) :
  (String.length src <= n)%nat -> (String.length src <= m)%nat ->
  convertToUnicode n src = convertToUnicode m src.
Proof.
  revert m src; induction n as [|n IH]; intros m src Hn Hm.
  - destruct src; [|simpl in Hn; lia]. now destruct m.
  - destruct src as [|c src]; [now destruct m|].
    destruct m as [|m]; [simpl in Hm; lia|].
    simpl in Hn, Hm. simpl.
    destruct (fromUtf8_char c src) as [[units rest]|] eqn:Hstep.
    + pose proof (fromUtf8_char_shorter _ _ _ _ Hstep).
      f_equal. apply IH; lia.
    + f_equal. apply IH; lia.
Qed.

Lemma decode_cons (c : ascii) (src : string) :
  decode (String c src) =
  match fromUtf8_char c src with
  | Some (units, rest) => (units ++ decode rest)%list
  | None => ReplacementCharacter :: decode src
  end.
Proof.
  unfold decode. simpl.
  destruct (fromUtf8_char c src) as [[units rest]|] eqn:Hstep.
  - pose proof (fromUtf8_char_shorter _ _ _ _ Hstep).
    f_equal. apply convertToUnicode_fuel; lia.
  - reflexivity.
Qed.

Lemma wellFormed_fuel_enough (n m : nat) (src : string) :
  (String.length src <= n)%nat -> (String.length src <= m)%nat ->
  wellFormed_fuel n src = wellFormed_fuel m src.
Proof.
  revert m src; induction n as [|n IH]; intros m src Hn Hm.
  - destruct src; [|simpl in Hn; lia]. now destruct m.
  - destruct src as [|c src]; [now destruct m|].
    destruct m as [|m]; [simpl in Hm; lia|].
    simpl in Hn, Hm. simpl.
    destruct (fromUtf8_char c src) as [[units rest]|] eqn:Hstep; [|reflexivity].
    pose proof (fromUtf8_char_shorter _ _ _ _ Hstep). apply IH; lia.
Qed.

Lemma wellFormed_cons (c : ascii) (src : string) :
  wellFormed (String c src) =
  match fromUtf8_char c src with
  | Some (_, rest) => wellFormed rest
  | None => false
  end.
Proof.
  unfold wellFormed. simpl.
  destruct (fromUtf8_char c src) as [[units rest]|] eqn:Hstep; [|reflexivity].
  pose proof (fromUtf8_char_shorter _ _ _ _ Hstep).
  apply wellFormed_fuel_enough; lia.
Qed.

(** Induction along the steps of the decoder. *)
Lemma decoder_ind (P : string -> Prop) :
  P "" ->
  (forall c src,
      (forall units rest, fromUtf8_char c src = Some (units, rest) -> P rest) ->
      (fromUtf8_char c src = None -> P src) ->
      P (String c src)) ->
  forall src, P src.
Proof.
  intros Hnil Hcons src.
  remember (String.length src) as n eqn:Hn.
  assert (Hle : (String.length src <= n)%nat) by lia. clear Hn.
  revert src Hle. induction n as [|n IH]; intros src Hle.
  - destruct src; [exact Hnil | simpl in Hle; lia].
  - destruct src as [|c src]; [exact Hnil|]. simpl in Hle.
    apply Hcons.
    + intros units rest Hstep.
      pose proof (fromUtf8_char_shorter _ _ _ _ Hstep). apply IH; lia.
    + intros _. apply IH; lia.
Qed.

End DecoderFacts.

(** ** ASCII bytes under the decoder *)

Section AsciiFacts.
Import QStr Str.

Lemma contains_char_app (c : ascii) (a b : string) :
  contains_char c (a ++ b) = contains_char c a || contains_char c b.
Proof.
  induction a as [|x a IH]; simpl; [reflexivity|].
  now rewrite IH, orb_assoc.
Qed.

Lemma occurs_app_l (needle before s : string) :
  occurs needle s -> occurs needle (before ++ s).
Proof.
  intros [b [a ->]]. exists (before ++ b), a. now rewrite append_assoc.
Qed.

Lemma decode_ascii (c : ascii) (src : string) :
  (code c < 128)%Z -> decode (String c src) = code c :: decode src.
Proof.
  intros Hc. rewrite decode_cons. unfold fromUtf8_char.
  now replace (code c <? 128)%Z with true by lia.
Qed.

(** The decoder is synchronised at every ASCII byte: what is before it
    and what is after it are decoded apart. *)
Lemma decode_app_ascii (a : string) (c : ascii) (b : string) :
  (code c < 128)%Z ->
  decode (a ++ String c b) = (decode a ++ code c :: decode b)%list.
Proof.
  intros Hc. induction a as [|c0 src IHrest IHsrc] using decoder_ind.
  - simpl. now apply decode_ascii.
  - change (String c0 src ++ String c b) with (String c0 (src ++ String c b)).
    rewrite !decode_cons, (fromUtf8_char_app_ascii _ _ _ _ Hc).
    destruct (fromUtf8_char c0 src) as [[units rest]|] eqn:Hstep.
    + rewrite (IHrest _ _ eq_refl). now rewrite app_assoc.
    + now rewrite (IHsrc eq_refl).
Qed.

(** An ASCII unit of the decoded string is an ASCII byte of the input. *)
Lemma decode_no_ascii (a : ascii) (src : string) :
  (code a < 128)%Z -> contains_char a src = false ->
  ~ In (code a) (decode src).
Proof.
  intros Ha. induction src as [|c src IHrest IHsrc] using decoder_ind.
  - intros _ [].
  - simpl. intros Hc. apply orb_false_iff in Hc as [Hca Hsrc].
    rewrite decode_cons.
    destruct (fromUtf8_char c src) as [[units rest]|] eqn:Hstep.
    + intros Hin. apply in_app_or in Hin as [Hin | Hin].
      * apply fromUtf8_char_inv in Hstep
          as [(_ & -> & _) | (_ & _ & Hall & _)].
        -- destruct Hin as [E | []]. apply code_inj in E. subst c.
           now rewrite Ascii.eqb_refl in Hca.
        -- rewrite List.Forall_forall in Hall. specialize (Hall _ Hin). lia.
      * destruct (fromUtf8_char_rest _ _ _ _ Hstep) as [consumed ->].
        rewrite contains_char_app in Hsrc.
        apply orb_false_iff in Hsrc as [_ Hrest].
        exact (IHrest _ _ eq_refl Hrest Hin).
    + intros [E | Hin].
      * unfold ReplacementCharacter in E. lia.
      * exact (IHsrc eq_refl Hsrc Hin).
Qed.

Lemma decode_head_ascii (a : ascii) (src : string) (q : QString) :
  (code a < 128)%Z -> decode src = code a :: q ->
  exists src', src = String a src'.
Proof.
  intros Ha. destruct src as [|c src]; [discriminate|].
  rewrite decode_cons.
  destruct (fromUtf8_char c src) as [[units rest]|] eqn:Hstep.
  - apply fromUtf8_char_inv in Hstep
      as [(_ & -> & _) | (_ & Hne & Hall & _)].
    + intros E. injection E as E _. apply code_inj in E. subst c.
      now exists src.
    + destruct units as [|u units]; [contradiction|].
      intros E. injection E as E _. inversion Hall; subst. lia.
  - intros E. injection E as E _. unfold ReplacementCharacter in E. lia.
Qed.

Lemma units_before_ascii (units x u1 y : QString) (c : QChar) :
  Forall (fun u => (128 <= u)%Z) units -> (c < 128)%Z ->
  (units ++ x = u1 ++ c :: y)%list ->
  exists u1', u1 = (units ++ u1')%list /\ x = (u1' ++ c :: y)%list.
Proof.
  intros Hall Hc. revert u1.
  induction units as [|u units IH]; intros u1 E.
  - now exists u1.
  - inversion Hall as [|? ? Hu Hall']; subst.
    destruct u1 as [|v u1]; simpl in E.
    + injection E as E _. lia.
    + injection E as -> E. destruct (IH Hall' _ E) as [u1' [-> ->]].
      now exists u1'.
Qed.

(** Two ASCII units side by side in the decoded string are two ASCII
    bytes side by side in the input. *)
Lemma decode_occurs_ascii (a1 a2 : ascii) (src : string) :
  (code a1 < 128)%Z -> (code a2 < 128)%Z ->
  QStr.occurs [code a1; code a2] (decode src) ->
  Str.occurs (String a1 (String a2 "")) src.
Proof.
  intros H1 H2. unfold QStr.occurs.
  induction src as [|c src IHrest IHsrc] using decoder_ind.
  - intros [u1 [u2 E]]. destruct u1; discriminate.
  - intros [u1 [u2 E]]. rewrite decode_cons in E. simpl in E.
    destruct (fromUtf8_char c src) as [[units rest]|] eqn:Hstep.
    + pose proof Hstep as Hinv.
      apply fromUtf8_char_inv in Hinv
        as [(_ & -> & ->) | (_ & _ & Hall & [consumed ->])].
      * destruct u1 as [|v u1]; simpl in E.
        -- injection E as E1 E. apply code_inj in E1. subst c.
           destruct (decode_head_ascii _ _ _ H2 E) as [src' ->].
           now exists "", src'.
        -- injection E as _ E.
           apply (occurs_app_l _ (String c "")).
           apply (IHrest _ _ eq_refl). now exists u1, u2.
      * destruct (units_before_ascii _ _ _ _ _ Hall H1 E) as [u1' [_ E']].
        apply (occurs_app_l _ (String c consumed)).
        apply (IHrest _ _ eq_refl). now exists u1', u2.
    + destruct u1 as [|v u1]; simpl in E.
      * injection E as E _. unfold ReplacementCharacter in E. lia.
      * injection E as _ E.
        apply (occurs_app_l _ (String c "")).
        apply (IHsrc eq_refl). now exists u1, u2.
Qed.

Lemma skipBom_suffix (src : string) :
  exists bom, src = bom ++ skipBom src.
Proof.
  destruct src as [|a [|b [|c rest]]]; try (now exists "").
  simpl. destruct (_ && _ && _).
  - now exists (String a (String b (String c ""))).
  - now exists "".
Qed.

Lemma skipBom_without (src : string) :
  startsWithBom src = false -> skipBom src = src.
Proof.
  destruct src as [|a [|b [|c rest]]]; try reflexivity.
  simpl. now intros ->.
Qed.

(** The mark does not reach past a ';'. *)
Lemma skipBom_app (desc tail : string) :
  skipBom (desc ++ String ";" tail) = skipBom desc ++ String ";" tail.
Proof.
  destruct desc as [|a [|b [|c desc]]].
  - destruct tail as [|x [|y tail]]; reflexivity.
  - destruct tail as [|x tail]; [reflexivity|]. simpl.
    change (code ";" =? 187)%Z with false. now rewrite andb_false_r.
  - simpl. change (code ";" =? 191)%Z with false. now rewrite andb_false_r.
  - simpl. now destruct (_ && _ && _).
Qed.

Lemma startsWithBom_app (desc tail : string) :
  startsWithBom (desc ++ String ";" tail) = startsWithBom desc.
Proof.
  destruct desc as [|a [|b [|c desc]]].
  - destruct tail as [|x [|y tail]]; reflexivity.
  - destruct tail as [|x tail]; [reflexivity|]. simpl.
    change (code ";" =? 187)%Z with false. now rewrite andb_false_r.
  - simpl. change (code ";" =? 191)%Z with false. now rewrite andb_false_r.
  - reflexivity.
Qed.

(** The decoded string is cut at '|' where the bytes are. *)
Lemma split_decode_join (pieces : list string) :
  pieces <> [] ->
  Forall (fun piece => contains_char "|" piece = false) pieces ->
  QStr.split (QChar_of_char "|") (decode (join "|" pieces))
  = map decode pieces.
Proof.
  assert (Hbar : (code "|" < 128)%Z) by (vm_compute; reflexivity).
  induction pieces as [|p ps IH]; intros Hne Hall; [contradiction|].
  inversion Hall as [|? ? Hp Hps]; subst.
  destruct ps as [|q ps].
  - simpl. apply q_split_piece. now apply decode_no_ascii.
  - cbn [join map]. rewrite (decode_app_ascii _ _ _ Hbar).
    unfold QChar_of_char. rewrite q_split_piece_then.
    + f_equal. apply IH; [discriminate | assumption].
    + now apply decode_no_ascii.
Qed.

Lemma split_decode (rest : string) :
  QStr.split (QChar_of_char "|") (decode rest)
  = map decode (Str.split "|" rest).
Proof.
  rewrite <- (join_split "|" rest) at 1.
  apply split_decode_join; [apply split_not_nil | apply split_pieces].
Qed.

End AsciiFacts.

(** ** Decoding and encoding well-formed UTF-8 *)

Section RoundTripFacts.
Import QStr Str.

Ltac by_arithmetic := Z.div_mod_to_equations; lia.

(** The encoder writes back the bytes a step of the decoder has read. *)
Lemma fromUtf8_char_encoded (c : ascii) (src : string)
    (units : list QChar) (rest : string) :
  fromUtf8_char c src = Some (units, rest) ->
  exists consumed,
    String c src = consumed ++ rest /\
    forall q, convertFromUnicode (units ++ q)%list
              = consumed ++ convertFromUnicode q.
Proof.
  unfold fromUtf8_char. intros H.
  pose proof (code_range c) as Hc.
  destruct (code c <? 128)%Z eqn:Hascii.
  { injection H as <- <-. exists (String c ""). split; [reflexivity|].
    intros q. simpl. rewrite Hascii. now rewrite byte_code. }
  destruct (code c <=? 193)%Z eqn:H193; [discriminate|].
  destruct (code c <? 224)%Z eqn:H224.
  { destruct (continuation src) as [[x1 s1]|] eqn:H1; [|discriminate].
    apply continuation_inv in H1 as (c1 & -> & Hc1 & ->).
    apply checked_inv in H as (-> & -> & Hrange & _).
    exists (String c (String c1 "")). split; [reflexivity|].
    intros q. unfold utf16.
    set (uc := (code c mod 32 * 64 + code c1 mod 64)%Z) in *.
    assert (Huc : uc = ((code c - 192) * 64 + (code c1 - 128))%Z)
      by (unfold uc; by_arithmetic).
    replace (uc <? 65536)%Z with true by lia.
    cbn [app convertFromUnicode].
    replace (uc <? 128)%Z with false by lia.
    replace (uc <? 2048)%Z with true by lia.
    rewrite (byte_eq c), (byte_eq c1); [reflexivity | |]; by_arithmetic. }
  destruct (code c <? 240)%Z eqn:H240.
  { destruct (continuation src) as [[x1 s1]|] eqn:H1; [|discriminate].
    apply continuation_inv in H1 as (c1 & -> & Hc1 & ->).
    destruct (continuation s1) as [[x2 s2]|] eqn:H2; [|discriminate].
    apply continuation_inv in H2 as (c2 & -> & Hc2 & ->).
    apply checked_inv in H as (-> & -> & Hrange & Hsur).
    exists (String c (String c1 (String c2 ""))). split; [reflexivity|].
    intros q. unfold utf16.
    set (uc := ((code c mod 16 * 64 + code c1 mod 64) * 64
                + code c2 mod 64)%Z) in *.
    assert (Huc : uc = (((code c - 224) * 64 + (code c1 - 128)) * 64
                        + (code c2 - 128))%Z)
      by (unfold uc; by_arithmetic).
    replace (uc <? 65536)%Z with true by lia.
    cbn [app convertFromUnicode].
    replace (uc <? 128)%Z with false by lia.
    replace (uc <? 2048)%Z with false by lia.
    rewrite Hsur. cbn [negb].
    rewrite (byte_eq c), (byte_eq c1), (byte_eq c2);
      [reflexivity | | |]; by_arithmetic. }
  destruct (code c <? 245)%Z eqn:H245; [|discriminate].
  destruct (continuation src) as [[x1 s1]|] eqn:H1; [|discriminate].
  apply continuation_inv in H1 as (c1 & -> & Hc1 & ->).
  destruct (continuation s1) as [[x2 s2]|] eqn:H2; [|discriminate].
  apply continuation_inv in H2 as (c2 & -> & Hc2 & ->).
  destruct (continuation s2) as [[x3 s3]|] eqn:H3; [|discriminate].
  apply continuation_inv in H3 as (c3 & -> & Hc3 & ->).
  apply checked_inv in H as (-> & -> & Hrange & _).
  exists (String c (String c1 (String c2 (String c3 "")))).
  split; [reflexivity|].
  intros q. unfold utf16.
  set (uc := (((code c mod 8 * 64 + code c1 mod 64) * 64
               + code c2 mod 64) * 64 + code c3 mod 64)%Z) in *.
  assert (Huc : uc = ((((code c - 240) * 64 + (code c1 - 128)) * 64
                       + (code c2 - 128)) * 64 + (code c3 - 128))%Z)
    by (unfold uc; by_arithmetic).
  replace (uc <? 65536)%Z with false by lia.
  set (high := (uc / 1024 + 55232)%Z).
  set (low := (uc mod 1024 + 56320)%Z).
  assert (Hhigh : (55296 <= high < 56320)%Z) by (unfold high; by_arithmetic).
  assert (Hlow : (56320 <= low < 57344)%Z) by (unfold low; by_arithmetic).
  assert (Hucs4 : ((high - 55296) * 1024 + (low - 56320) + 65536 = uc)%Z)
    by (unfold high, low; by_arithmetic).
  cbn [app convertFromUnicode].
  replace (high <? 128)%Z with false by lia.
  replace (high <? 2048)%Z with false by lia.
  unfold isSurrogate, isHighSurrogate, isLowSurrogate.
  replace (55296 <=? high)%Z with true by lia.
  replace (high <? 57344)%Z with true by lia.
  replace (high <? 56320)%Z with true by lia.
  replace (56320 <=? low)%Z with true by lia.
  replace (low <? 57344)%Z with true by lia.
  cbn [negb andb]. rewrite Hucs4. clearbody uc. clear high low Hhigh Hlow Hucs4.
  rewrite (byte_eq c), (byte_eq c1), (byte_eq c2), (byte_eq c3);
    [reflexivity | | | |]; by_arithmetic.
Qed.

(** Well-formed UTF-8 comes back from the [QString] as it went in. *)
Lemma toStdString_decode (src : string) :
  wellFormed src = true -> toStdString (decode src) = src.
Proof.
  unfold toStdString.
  induction src as [|c src IHrest _] using decoder_ind; [reflexivity|].
  rewrite wellFormed_cons, decode_cons.
  destruct (fromUtf8_char c src) as [[units rest]|] eqn:Hstep; [|discriminate].
  intros Hwf.
  destruct (fromUtf8_char_encoded _ _ _ _ Hstep) as [consumed [E Henc]].
  rewrite Henc, (IHrest _ _ eq_refl Hwf). now symmetry.
Qed.

Lemma wellFormed_app_ascii (a : string) (c : ascii) (b : string) :
  (code c < 128)%Z ->
  wellFormed (a ++ String c b) = wellFormed a && wellFormed b.
Proof.
  intros Hc. induction a as [|c0 src IHrest _] using decoder_ind.
  - simpl. rewrite wellFormed_cons. unfold fromUtf8_char.
    now replace (code c <? 128)%Z with true by lia.
  - change (String c0 src ++ String c b) with (String c0 (src ++ String c b)).
    rewrite !wellFormed_cons, (fromUtf8_char_app_ascii _ _ _ _ Hc).
    destruct (fromUtf8_char c0 src) as [[units rest]|] eqn:Hstep;
      [|reflexivity].
    apply (IHrest _ _ eq_refl).
Qed.

Lemma wellFormed_join (pieces : list string) :
  wellFormed (join "|" pieces) = true ->
  Forall (fun piece => wellFormed piece = true) pieces.
Proof.
  assert (Hbar : (code "|" < 128)%Z) by (vm_compute; reflexivity).
  induction pieces as [|p ps IH]; intros H; [constructor|].
  destruct ps as [|q ps].
  - constructor; [exact H | constructor].
  - cbn [join] in H. rewrite (wellFormed_app_ascii _ _ _ Hbar) in H.
    apply andb_true_iff in H as [Hp Hps].
    constructor; [exact Hp | apply IH, Hps].
Qed.

Lemma wellFormed_split (rest : string) :
  wellFormed rest = true ->
  Forall (fun piece => wellFormed piece = true) (Str.split "|" rest).
Proof.
  intros H. apply wellFormed_join. now rewrite join_split.
Qed.

Lemma wellFormed_separated (desc rest : string) :
  wellFormed (desc ++ "; " ++ rest) = true ->
  wellFormed desc = true /\ wellFormed rest = true.
Proof.
  simpl. rewrite (wellFormed_app_ascii desc ";");
    [|vm_compute; reflexivity].
  intros H. apply andb_true_iff in H as [Hdesc H]. split; [exact Hdesc|].
  change (String " " rest) with ("" ++ String " " rest) in H.
  rewrite (wellFormed_app_ascii "" " " rest) in H;
    [|vm_compute; reflexivity].
  exact H.
Qed.

Lemma map_recode (pieces : list string) :
  Forall (fun piece => wellFormed piece = true) pieces ->
  map (fun piece => toStdString (decode piece)) pieces = pieces.
Proof.
  induction 1 as [|p ps Hp _ IH]; [reflexivity|].
  simpl. now rewrite (toStdString_decode p Hp), IH.
Qed.

End RoundTripFacts.

(** ** Option variables *)

Section VariableFacts.
Import QStr Str CoreVariable.

Lemma append_choices_app (acc : list string) (_choices : list QString) :
  append_choices acc _choices = (acc ++ map toStdString _choices)%list.
Proof.
  unfold append_choices. revert acc.
  induction _choices as [|c cs IH]; intros acc; simpl.
  - now rewrite app_nil_r.
  - rewrite IH. now rewrite <- app_assoc.
Qed.

Lemma indexOf_first (needle s : string) :
  Str.occurs needle s ->
  exists before after,
    s = before ++ needle ++ after /\
    forall before' after', s = before' ++ needle ++ after' ->
                           (String.length before <= String.length before')%nat.
Proof.
  intros Hocc.
  assert (Hi : Str.indexOf s needle <> (-1)%Z).
  { intros E. exact (indexOf_from_absent needle s 0 ltac:(lia) E Hocc). }
  destruct (indexOf_from_found needle s 0 _ ltac:(lia) eq_refl Hi)
    as [before [after [E [_ Hmin]]]].
  now exists before, after.
Qed.

Lemma no_separator_before (desc rest desc' rest' : string) :
  ~ Str.occurs "; " desc ->
  desc ++ "; " ++ rest = desc' ++ "; " ++ rest' ->
  (String.length desc <= String.length desc')%nat.
Proof.
  revert desc'; induction desc as [|c desc IH]; intros desc' Hno E.
  - simpl; lia.
  - destruct desc' as [|c' desc'].
    + exfalso. simpl in E. injection E as Hc E. subst c.
      destruct desc as [|c1 desc]; simpl in E; [discriminate|].
      injection E as Hc1 _. subst c1.
      apply Hno. now exists "", desc.
    + simpl in E. injection E as _ E.
      assert (Hno' : ~ Str.occurs "; " desc).
      { intros [b [a Hb]]. apply Hno. exists (String c b), a.
        simpl. now rewrite Hb. }
      specialize (IH _ Hno' E). simpl; lia.
Qed.

Lemma first_separator_prefix (desc rest : string) :
  (forall desc' rest', desc ++ "; " ++ rest = desc' ++ "; " ++ rest' ->
                       (String.length desc <= String.length desc')%nat) ->
  ~ Str.occurs "; " desc.
Proof.
  intros Hmin [b [a E]].
  assert (E' : desc ++ "; " ++ rest = b ++ "; " ++ (a ++ "; " ++ rest)).
  { rewrite E. now rewrite !append_assoc. }
  specialize (Hmin _ _ E').
  rewrite E, !length_append in Hmin. simpl in Hmin. lia.
Qed.

Lemma length_split (sep : ascii) (s : string) :
  length (Str.split sep s) = S (count_char sep s).
Proof.
  induction s as [|c s IH]; [reflexivity|]. simpl.
  destruct (Ascii.eqb c sep); simpl.
  - now rewrite IH.
  - destruct (Str.split sep s); simpl in *; [discriminate | exact IH].
Qed.

Lemma separator_units : fromUtf8 "; " = [code ";"; code " "].
Proof. reflexivity. Qed.

(** No separator among the bytes, none among the units. *)
Lemma fromUtf8_no_separator (d : string) :
  ~ Str.occurs "; " d -> ~ QStr.occurs (fromUtf8 "; ") (fromUtf8 d).
Proof.
  intros Hno Hocc. apply Hno. rewrite separator_units in Hocc.
  apply decode_occurs_ascii in Hocc; try (vm_compute; reflexivity).
  destruct (skipBom_suffix d) as [bom E]. rewrite E.
  now apply occurs_app_l.
Qed.

(** The units of a descriptor around its first separator. *)
Lemma fromUtf8_first_separator (desc rest : string) :
  fromUtf8 (desc ++ "; " ++ rest)
  = (fromUtf8 desc ++ code ";" :: code " " :: decode rest)%list.
Proof.
  unfold fromUtf8. simpl. rewrite skipBom_app.
  rewrite (decode_app_ascii _ ";"); [|vm_compute; reflexivity].
  rewrite (decode_ascii " "); [|vm_compute; reflexivity].
  reflexivity.
Qed.

Lemma make_without_separator (k d : string) :
  ~ Str.occurs "; " d ->
  make {| rv_key := Some k; rv_value := Some d |} =
  Some {| m_key := k; m_value := ""; m_description := ""; m_choices := [] |}.
Proof.
  intros Hno. unfold make. cbn [rv_key rv_value].
  now rewrite (q_indexOf_absent _ _ (fromUtf8_no_separator d Hno)).
Qed.

(** The constructor on any descriptor with a separator: the bytes
    before the first separator and the pieces after it, each decoded
    and encoded again. *)
Lemma make_first_separator (k desc rest : string) :
  ~ Str.occurs "; " desc ->
  make {| rv_key := Some k; rv_value := Some (desc ++ "; " ++ rest) |} =
  Some {| m_key := k; m_value := "";
          m_description := toStdString (fromUtf8 desc);
          m_choices := map (fun piece => toStdString (decode piece))
                           (Str.split "|" rest) |}.
Proof.
  intros Hno. unfold make. cbn [rv_key rv_value].
  rewrite fromUtf8_first_separator.
  pose proof (fromUtf8_no_separator desc Hno) as Hnou.
  rewrite separator_units in *.
  unfold QStr.indexOf.
  rewrite (q_indexOf_from_first (code ";") (code " "));
    [|vm_compute; discriminate | exact Hnou].
  replace (0 + Z.of_nat (length (fromUtf8 desc)) =? -1)%Z with false by lia.
  cbn [negb]. rewrite Z.add_0_l.
  rewrite q_mid_left, append_choices_app. cbn [app].
  replace (Z.of_nat (length (fromUtf8 desc)) + 2)%Z
    with (Z.of_nat (length (fromUtf8 desc ++ [code ";"; code " "])%list))
    by (rewrite length_app; simpl; lia).
  change (fromUtf8 desc ++ code ";" :: code " " :: decode rest)%list
    with (fromUtf8 desc ++ [code ";"; code " "] ++ decode rest)%list.
  rewrite app_assoc, q_mid_right, split_decode, map_map.
  reflexivity.
Qed.

(** On well-formed UTF-8 with no byte-order mark in front, the bytes
    themselves. *)
Lemma make_with_separator (k desc rest : string) :
  ~ Str.occurs "; " desc ->
  wellFormed desc = true -> startsWithBom desc = false ->
  wellFormed rest = true ->
  make {| rv_key := Some k; rv_value := Some (desc ++ "; " ++ rest) |} =
  Some {| m_key := k; m_value := ""; m_description := desc;
          m_choices := Str.split "|" rest |}.
Proof.
  intros Hno Hdesc Hbom Hrest.
  rewrite (make_first_separator k desc rest Hno).
  unfold fromUtf8 at 1. rewrite (skipBom_without desc Hbom).
  rewrite (toStdString_decode desc Hdesc).
  now rewrite (map_recode _ (wellFormed_split rest Hrest)).
Qed.

Lemma wellFormed_descriptor (desc rest : string) :
  wellFormed (desc ++ "; " ++ rest) = true ->
  startsWithBom (desc ++ "; " ++ rest) = false ->
  wellFormed desc = true /\ startsWithBom desc = false /\
  wellFormed rest = true.
Proof.
  intros Hwf Hbom. apply wellFormed_separated in Hwf as [Hdesc Hrest].
  simpl in Hbom. rewrite startsWithBom_app in Hbom. now repeat split.
Qed.

Lemma wellFormed_joined (pieces : list string) :
  Forall (fun piece => wellFormed piece = true) pieces ->
  wellFormed (join "|" pieces) = true.
Proof.
  induction 1 as [|p ps Hp Hps IH]; [reflexivity|].
  destruct ps as [|q ps]; [exact Hp|].
  change (join "|" (p :: q :: ps))
    with (p ++ String "|" (join "|" (q :: ps))).
  rewrite wellFormed_app_ascii; [|vm_compute; reflexivity].
  now rewrite Hp, IH.
Qed.

Example make_speed :
  make {| rv_key := Some "speed"; rv_value := Some "Emulation speed; slow|fast" |}
  = Some {| m_key := "speed"; m_value := "";
            m_description := "Emulation speed"; m_choices := ["slow"; "fast"] |}.
Proof. reflexivity. Qed.

Example make_repeated_and_empty_choices :
  make {| rv_key := Some "mode"; rv_value := Some "Mode; a; b||a|" |}
  = Some {| m_key := "mode"; m_value := "";
            m_description := "Mode"; m_choices := ["a; b"; ""; "a"; ""] |}.
Proof. reflexivity. Qed.

Example make_null_key :
  make {| rv_key := None; rv_value := Some "Mode; a|b" |} = None.
Proof. reflexivity. Qed.

(** C1: a descriptor without the separator "; " still makes a Variable:
    the constructor returns, [key()] is the key the plugin gave,
    [description()] is empty, [choices()] is the empty list, and
    [value(d)] and [value()] return (the default, as no value is set). *)
Theorem C1_descriptor_without_separator (k d default_ : string) :
  ~ occurs "; " d ->
  exists v,
    make {| rv_key := Some k; rv_value := Some d |} = Some v /\
    key v = k /\
    description v = "" /\
    choices v = [] /\
    value v default_ = default_ /\
    value0 v = "".
Proof.
  intros Hno. eexists. split; [apply (make_without_separator k d Hno)|].
  repeat split.
Qed.

Lemma C1_descriptor_without_separator_witness :
  ~ occurs "; " "enabled|disabled" /\
  exists v,
    make {| rv_key := Some "bios"; rv_value := Some "enabled|disabled" |}
      = Some v /\
    key v = "bios" /\
    description v = "" /\
    choices v = [] /\
    value v "enabled" = "enabled" /\
    value0 v = "".
Proof.
  assert (H : ~ occurs "; " "enabled|disabled").
  { apply (indexOf_from_absent "; " "enabled|disabled" 0); [lia | reflexivity]. }
  split; [exact H|].
  apply (C1_descriptor_without_separator "bios" "enabled|disabled" "enabled" H).
Defined.

Example make_two_byte_character :
  make {| rv_key := Some "title";
          rv_value := Some ("Caf" ++ String "195" (String "169" "; a|b")) |}
  = Some {| m_key := "title"; m_value := "";
            m_description := "Caf" ++ String "195" (String "169" "");
            m_choices := ["a"; "b"] |}.
Proof. reflexivity. Qed.

Example make_leading_byte_order_mark :
  make {| rv_key := Some "title";
          rv_value := Some (String "239" (String "187" (String "191"
                              "Title; a|b"))) |}
  = Some {| m_key := "title"; m_value := "";
            m_description := "Title"; m_choices := ["a"; "b"] |}.
Proof. reflexivity. Qed.

Example make_truncated_character :
  make {| rv_key := Some "title";
          rv_value := Some ("a; b|" ++ String "226" (String "130" "")) |}
  = Some {| m_key := "title"; m_value := ""; m_description := "a";
            m_choices :=
              ["b"; String "239" (String "191" (String "189"
                      (String "239" (String "191" (String "189" ""))))) ] |}.
Proof. reflexivity. Qed.

(** C2, as claimed, fails: the descriptor goes through Qt's UTF-8
    decoder and encoder, so on the bytes 'C' 'a' 'f' E9 before the
    separator (E9 starts no UTF-8 character here) [description()] is
    'C' 'a' 'f' EF BF BD and not the bytes before the separator. *)
Lemma C2_malformed_descriptor_rewritten :
  let d := "Caf" ++ String "233" "; a|b" in
  occurs "; " d /\
  ~ (exists v desc rest,
       make {| rv_key := Some "title"; rv_value := Some d |} = Some v /\
       d = desc ++ "; " ++ rest /\
       description v = desc /\
       choices v = split "|" rest).
Proof.
  intros d. split.
  - now exists ("Caf" ++ String "233" ""), "a|b".
  - intros (v & desc & rest & Hmake & E & Hdesc & _).
    vm_compute in Hmake. injection Hmake as <-.
    unfold description in Hdesc. cbn [m_description] in Hdesc.
    subst desc. vm_compute in E. discriminate E.
Qed.

(** C2, amended: on a descriptor that is well-formed UTF-8, has no
    byte-order mark in front and contains "; ", [description()] is the
    text before the first "; " and [choices()] is the text after it cut
    at every '|': in order, with repeated and empty pieces kept.  The
    cut is the only non-empty list of bar-free pieces that gives the
    text back when joined with '|'. *)
Theorem C2_descriptor_with_separator (k d : string) :
  wellFormed d = true ->
  startsWithBom d = false ->
  occurs "; " d ->
  exists v desc rest,
    make {| rv_key := Some k; rv_value := Some d |} = Some v /\
    d = desc ++ "; " ++ rest /\
    (forall desc' rest', d = desc' ++ "; " ++ rest' ->
                         (String.length desc <= String.length desc')%nat) /\
    description v = desc /\
    choices v = split "|" rest /\
    join "|" (choices v) = rest /\
    Forall (fun choice => contains_char "|" choice = false) (choices v) /\
    (forall pieces,
        pieces <> [] ->
        Forall (fun piece => contains_char "|" piece = false) pieces ->
        join "|" pieces = rest ->
        choices v = pieces).
Proof.
  intros Hwf Hbom Hocc.
  destruct (indexOf_first "; " d Hocc) as [desc [rest [E Hmin]]].
  subst d. eexists; exists desc, rest.
  destruct (wellFormed_descriptor desc rest Hwf Hbom) as (Hdesc & Hnobom & Hrest).
  split.
  { apply (make_with_separator k desc rest); try assumption.
    exact (first_separator_prefix desc rest Hmin). }
  unfold description, choices. cbn [m_description m_choices].
  repeat split; try assumption.
  - apply join_split.
  - apply split_pieces.
  - intros pieces Hne Hall <-. now apply split_join.
Qed.

Lemma C2_descriptor_with_separator_witness :
  wellFormed "Region; auto|ntsc|pal|ntsc" = true /\
  startsWithBom "Region; auto|ntsc|pal|ntsc" = false /\
  occurs "; " "Region; auto|ntsc|pal|ntsc" /\
  exists v desc rest,
    make {| rv_key := Some "region";
            rv_value := Some "Region; auto|ntsc|pal|ntsc" |} = Some v /\
    "Region; auto|ntsc|pal|ntsc" = desc ++ "; " ++ rest /\
    (forall desc' rest', "Region; auto|ntsc|pal|ntsc" = desc' ++ "; " ++ rest' ->
                         (String.length desc <= String.length desc')%nat) /\
    description v = desc /\
    choices v = split "|" rest /\
    join "|" (choices v) = rest /\
    Forall (fun choice => contains_char "|" choice = false) (choices v) /\
    (forall pieces,
        pieces <> [] ->
        Forall (fun piece => contains_char "|" piece = false) pieces ->
        join "|" pieces = rest ->
        choices v = pieces).
Proof.
  assert (H : occurs "; " "Region; auto|ntsc|pal|ntsc").
  { exists "Region", "auto|ntsc|pal|ntsc". reflexivity. }
  split; [reflexivity|]. split; [reflexivity|]. split; [exact H|].
  apply (C2_descriptor_with_separator "region" "Region; auto|ntsc|pal|ntsc"
           eq_refl eq_refl H).
Defined.

(** C3: [value(d)] always returns: the reference it gives is to the
    caller's [d] when the stored value is empty and to the stored value
    otherwise, and reads as [d], respectively as the stored value;
    [value()] reads as the empty string, respectively the stored value. *)
Theorem C3_value_or_default (k desc : string) (chs : list string)
    (default_ : string) :
  (let unset := {| m_key := k; m_value := ""; m_description := desc;
                   m_choices := chs |} in
   value_ref unset = ref_default_ /\
   value unset default_ = default_ /\
   value0 unset = "") /\
  (forall c s,
     let set := {| m_key := k; m_value := String c s; m_description := desc;
                   m_choices := chs |} in
     value_ref set = ref_m_value /\
     value set default_ = String c s /\
     value0 set = String c s).
Proof. split; [|intros c s]; repeat split. Qed.

(** C10: [isValid()] is true exactly when the key is not empty; the
    default-constructed Variable is not valid; a Variable made with a
    non-empty key is valid, whatever its descriptor (null, without or
    with separator). *)
Theorem C10_isValid_iff_key_nonempty :
  (forall v, isValid v = true <-> key v <> "") /\
  isValid default = false /\
  (forall c k descriptor,
     exists v,
       make {| rv_key := Some (String c k); rv_value := descriptor |} = Some v /\
       key v = String c k /\
       isValid v = true).
Proof.
  split; [|split].
  - intros [k val desc chs]. unfold isValid, key. cbn [m_key].
    destruct k; simpl; split; congruence.
  - reflexivity.
  - intros c k descriptor. unfold make. cbn [rv_key].
    destruct (negb _); eexists; repeat split.
Qed.

End VariableFacts.
(** ** The symbol table *)

Section SymbolFacts.
Import LibretroSymbols.

Lemma members_complete (m : member) : In m members.
Proof. destruct m; unfold members; simpl; tauto. Qed.

(** C7: after [clear()] every function-pointer member of the table is
    null, whatever it held before: each of the 18 core entry points, of
    the 7 set-callback registration points and of the 4 optional
    callbacks, which are all the 29 members. *)
Theorem C7_clear_nulls_every_member (symbols : t) :
  (forall m, clear symbols m = nullptr) /\
  Forall (fun m => clear symbols m = nullptr) mandatory_entry_points /\
  Forall (fun m => clear symbols m = nullptr) frontend_callbacks /\
  Forall (fun m => clear symbols m = nullptr) optional_callbacks /\
  (forall m, In m members) /\
  length members = 29%nat.
Proof.
  assert (H : forall m, clear symbols m = nullptr)
    by (intros m; destruct m; reflexivity).
  repeat split; try (apply Forall_forall; intros m _; apply H).
  - exact H.
  - exact members_complete.
Qed.

Example clear_stale_pointer :
  clear (fun _ => Some 4198400%Z) retro_run = nullptr.
Proof. reflexivity. Qed.

End SymbolFacts.

(** ** The error enumeration *)

Section ErrorFacts.
Import Core.

Lemma errors_complete (e : Error) : In e errors.
Proof. destruct e; simpl; tauto. Qed.

(** C4, as claimed, fails: the content-load family has no catch-all
    generic-load-failure (no enumerator stands for it), so the four
    subkinds are not in each family. *)
Lemma C4_no_generic_content_load_failure :
  ~ ((forall f s,
        In s [not_found; access_denied; unknown_filesystem_error;
              generic_load_failure] ->
        exists e, classify e = Some (f, s)) /\
     (exists e, classify e = Some (core_load, invalid_library_format)) /\
     (exists e, classify e = None)).
Proof.
  intros [H _].
  destruct (H content_load generic_load_failure) as [e He].
  - simpl; tauto.
  - destruct e; discriminate.
Qed.

(** C4, amended: [Error] is a closed enumeration of nine values, numbered
    0 to 8: the no-error value; the core-load family with generic load
    failure, invalid library format, not found, access denied and unknown
    filesystem error; the content-load family with not found, access
    denied and unknown filesystem error, and nothing else. *)
Theorem C4_error_enumeration :
  (forall e, In e errors) /\
  NoDup errors /\
  map Error_to_int errors = [0; 1; 2; 3; 4; 5; 6; 7; 8]%Z /\
  map classify errors =
    [ None;
      Some (core_load, generic_load_failure);
      Some (core_load, invalid_library_format);
      Some (core_load, not_found);
      Some (core_load, access_denied);
      Some (core_load, unknown_filesystem_error);
      Some (content_load, not_found);
      Some (content_load, access_denied);
      Some (content_load, unknown_filesystem_error) ] /\
  errors_of core_load =
    [CORELOAD; CORENOTLIBRARY; CORENOTFOUND; COREACCESSDENIED;
     COREUNKNOWNERROR] /\
  errors_of content_load =
    [GAMENOTFOUND; GAMEACCESSDENIED; GAMEUNKNOWNERROR] /\
  (forall e, classify e = None <-> e = CORENOERROR).
Proof.
  split; [exact errors_complete|].
  split; [apply (bool_decide_unpack _); vm_compute; reflexivity|].
  repeat split; try reflexivity.
  - destruct e; simpl; congruence.
  - intros ->; reflexivity.
Qed.

End ErrorFacts.

(** ** State-change notifications *)

Section LifecycleFacts.
Import Core Lifecycle.

Lemma notify_contents (a : adapter) :
  newState (notify a) = state_of a /\
  contents_of (data (notify a)) = contents_of_data (state_of a).
Proof. destruct a; split; reflexivity. Qed.

(** C5: every transition emits exactly one state-change notification; it
    is tagged with the new state and carries what that state calls for:
    nothing for Uninitialized and Finished, the negotiated AVInfo and
    pixel format for Ready, the specific Error for Error. *)
Theorem C5_one_notification_per_transition
    (a : adapter) (r : request) (a' : adapter) (out : list notification) :
  transition a r = Some (a', out) ->
  exists n,
    out = [n] /\
    newState n = state_of a' /\
    contents_of (data n) = contents_of_data (newState n) /\
    match a' with
    | uninitialized | finished => data n = None
    | ready av => data n = Some (data_avInfo av)
    | failed e => data n = Some (data_error e)
    end /\
    match r with
    | load_completed av => data n = Some (data_avInfo av)
    | load_failed e | fault e => data n = Some (data_error e)
    | run_frame => exists av, a = ready av /\ data n = Some (data_avInfo av)
    | unload => data n = None
    end.
Proof.
  unfold transition. destruct (target a r) as [b|] eqn:Ht; [|discriminate].
  intros E. injection E as <- <-.
  exists (notify b). destruct (notify_contents b) as [Hs Hc].
  split; [reflexivity|]. split; [exact Hs|]. split; [now rewrite Hs|].
  split; [destruct b; reflexivity|].
  destruct r, a; simpl in Ht; try discriminate; injection Ht as <-;
    try reflexivity.
  eexists; split; reflexivity.
Qed.

Lemma C5_one_notification_per_transition_witness :
  let av := {| avInfo := 140737488351232%Z;
               pixelFormat := RETRO_PIXEL_FORMAT_RGB565 |} in
  transition uninitialized (load_completed av)
    = Some (ready av, [ {| newState := STATEREADY;
                           data := Some (data_avInfo av) |} ]) /\
  exists n,
    [ {| newState := STATEREADY; data := Some (data_avInfo av) |} ] = [n] /\
    newState n = state_of (ready av) /\
    contents_of (data n) = contents_of_data (newState n) /\
    data n = Some (data_avInfo av) /\
    data n = Some (data_avInfo av).
Proof.
  intros av. split; [reflexivity|].
  apply (C5_one_notification_per_transition uninitialized (load_completed av)
           (ready av) _ eq_refl).
Defined.

End LifecycleFacts.

(** ** Buffer pools *)

Section PoolFacts.
Import BufferPool.
Context {Frame : Type}.

Lemma initial_well_formed (blank : Frame) : well_formed (initial blank).
Proof.
  unfold well_formed, initial, POOL_SIZE. cbn [slots index].
  rewrite length_replicate. lia.
Qed.

Lemma produce_well_formed (p : pool Frame) (frame : Frame) :
  well_formed p -> well_formed (produce p frame).
Proof.
  unfold well_formed, produce, POOL_SIZE. cbn [slots index].
  intros [Hlen Hidx]. rewrite length_insert. split; [exact Hlen|].
  apply Z.mod_pos_bound. lia.
Qed.

Lemma produce_all_snoc (p : pool Frame) (frames : list Frame) (frame : Frame) :
  produce_all p (frames ++ [frame])%list = produce (produce_all p frames) frame.
Proof. unfold produce_all. now rewrite fold_left_app. Qed.

Lemma produce_all_well_formed (p : pool Frame) (frames : list Frame) :
  well_formed p -> well_formed (produce_all p frames).
Proof.
  revert p; induction frames as [|f fs IH]; intros p Hp; [exact Hp|].
  apply IH, produce_well_formed, Hp.
Qed.

Lemma produce_all_index (p : pool Frame) (frames : list Frame) :
  well_formed p ->
  index (produce_all p frames)
  = ((index p + Z.of_nat (length frames)) mod POOL_SIZE)%Z.
Proof.
  revert p; induction frames as [|f fs IH]; intros p Hp.
  - simpl. rewrite Z.add_0_r. symmetry. apply Z.mod_small. apply Hp.
  - change (produce_all p (f :: fs)) with (produce_all (produce p f) fs).
    rewrite (IH _ (produce_well_formed p f Hp)).
    unfold produce. cbn [index length].
    rewrite Zplus_mod_idemp_l. f_equal. lia.
Qed.

Lemma produce_slot (p : pool Frame) (frame : Frame) :
  well_formed p ->
  slots (produce p frame) !! Z.to_nat (index p) = Some frame.
Proof.
  intros [Hlen Hidx]. unfold produce. cbn [slots].
  apply list_lookup_insert_eq. unfold POOL_SIZE in *. lia.
Qed.

Lemma produce_other_slots (p : pool Frame) (frame : Frame) (i : nat) :
  i <> Z.to_nat (index p) ->
  slots (produce p frame) !! i = slots p !! i.
Proof.
  intros Hi. unfold produce. cbn [slots].
  apply list_lookup_insert_ne. congruence.
Qed.

End PoolFacts.

Section PoolClaim.
Import BufferPool.

(** C6: a pool, audio or video, has 30 slots; after any number of frames
    produced from the start its index is within 0..29 and is the number
    of frames modulo 30; one more frame goes into the slot at the index,
    changes no other slot, and moves the index to the next slot modulo
    30.  With 30 frames produced and none consumed, the 31st goes into
    slot 0, over the first. *)
Theorem C6_pool_index_cyclic (Frame : Type) (blank : Frame)
    (produced : list Frame) (frame : Frame) :
  let p := produce_all (initial blank) produced in
  let p' := produce p frame in
  POOL_SIZE = 30%Z /\
  length (slots p) = 30%nat /\
  length (slots p') = 30%nat /\
  (0 <= index p < 30)%Z /\
  index p = (Z.of_nat (length produced) mod 30)%Z /\
  index p' = ((index p + 1) mod 30)%Z /\
  slots p' !! Z.to_nat (index p) = Some frame /\
  (forall i : nat, i <> Z.to_nat (index p) -> slots p' !! i = slots p !! i) /\
  (length produced = 30%nat ->
   slots p !! 0%nat = head produced /\ slots p' !! 0%nat = Some frame).
Proof.
  intros p p'.
  assert (Hp : well_formed p)
    by apply produce_all_well_formed, initial_well_formed.
  assert (Hp' : well_formed p') by apply produce_well_formed, Hp.
  assert (Hidx : index p = (Z.of_nat (length produced) mod 30)%Z).
  { unfold p. rewrite produce_all_index by apply initial_well_formed.
    reflexivity. }
  destruct Hp as [Hlen Hrange]. destruct Hp' as [Hlen' _].
  unfold POOL_SIZE in *.
  split; [reflexivity|]. split; [lia|]. split; [lia|].
  split; [exact Hrange|]. split; [exact Hidx|]. split; [reflexivity|].
  split; [apply produce_slot; split; assumption|].
  split; [intros i Hi; now apply produce_other_slots|].
  intros H30. split.
  - unfold p. clear -H30.
    do 31 (destruct produced as [|? produced]; try discriminate).
    reflexivity.
  - replace 0%nat with (Z.to_nat (index p)).
    + apply produce_slot; split; assumption.
    + rewrite Hidx, H30. reflexivity.
Qed.

Lemma C6_pool_index_cyclic_witness :
  let first30 : list BufferPool.audio_frame :=
    map (fun n => [Z.of_nat n; (- Z.of_nat n)%Z]) (seq 1 30) in
  let frame31 : BufferPool.audio_frame := [31; -31]%Z in
  let p : audioBufferPool := produce_all (initial []) first30 in
  let p' := produce p frame31 in
  length first30 = 30%nat /\
  index p = 0%Z /\
  index p' = 1%Z /\
  slots p !! 0%nat = Some [1; -1]%Z /\
  slots p' !! 0%nat = Some frame31 /\
  slots p' !! 1%nat = Some [2; -2]%Z.
Proof.
  intros first30 frame31 p p'.
  pose proof (C6_pool_index_cyclic BufferPool.audio_frame [] first30 frame31)
    as (_ & _ & _ & _ & Hidx & Hidx' & _ & Hother & H31).
  destruct (H31 eq_refl) as [Hfirst Hlast].
  split; [reflexivity|]. split; [exact Hidx|]. split; [exact Hidx'|].
  split; [exact Hfirst|]. split; [exact Hlast|].
  etransitivity; [apply (Hother 1%nat) | reflexivity].
  intros E; vm_compute in E; discriminate.
Defined.

Example video_pool_31_frames :
  let frames : list BufferPool.video_frame :=
    map (fun n => [Z.of_nat n]) (seq 1 31) in
  let p : videoBufferPool := produce_all (initial []) frames in
  index p = 1%Z /\ slots p !! 0%nat = Some [31%Z] /\
  slots p !! 29%nat = Some [30%Z].
Proof. repeat split. Qed.

End PoolClaim.

(** ** SRAM *)

Section SRAMFacts.
Import SRAM.

Lemma loadSRAM_same_size (saved region : bytes) :
  length saved = length region -> loadSRAM (Some saved) region = saved.
Proof.
  intros H. unfold loadSRAM.
  now replace (Z.of_nat (length saved) =? Z.of_nat (length region))%Z
    with true by lia.
Qed.

Lemma loadSRAM_other_size (saved region : bytes) :
  length saved <> length region -> loadSRAM (Some saved) region = region.
Proof.
  intros H. unfold loadSRAM.
  now replace (Z.of_nat (length saved) =? Z.of_nat (length region))%Z
    with false by lia.
Qed.

(** C8: a region saved and then loaded into a region of the same size
    comes back byte for byte; loading saved data of any other size
    leaves the region exactly as it was. *)
Theorem C8_sram_round_trip (region current : bytes) (file : option bytes) :
  (length current = length region ->
   loadSRAM (saveSRAM region file) current = region) /\
  (forall saved,
     length saved <> length current ->
     loadSRAM (Some saved) current = current).
Proof.
  split.
  - intros Hlen. unfold saveSRAM.
    destruct (Z.of_nat (length region) =? 0)%Z eqn:Hzero.
    + assert (region = []) by (destruct region; [reflexivity | simpl in Hzero; lia]).
      subst region. destruct current; [|discriminate].
      destruct file as [saved|]; [|reflexivity].
      unfold loadSRAM. destruct saved; reflexivity.
    + apply loadSRAM_same_size. congruence.
  - intros saved. apply loadSRAM_other_size.
Qed.

Lemma C8_sram_round_trip_witness :
  let region : bytes := [Byte.x01; Byte.x02; Byte.xff; Byte.x00] in
  let current : bytes := [Byte.x00; Byte.x00; Byte.x00; Byte.x00] in
  let shorter : bytes := [Byte.xaa; Byte.xbb] in
  length current = length region /\
  loadSRAM (saveSRAM region None) current = region /\
  length shorter <> length current /\
  loadSRAM (Some shorter) current = current.
Proof.
  intros region current shorter.
  destruct (C8_sram_round_trip region current None) as [Hsame Hother].
  assert (Hlen : length current = length region) by reflexivity.
  assert (Hne : length shorter <> length current) by (simpl; lia).
  split; [exact Hlen|]. split; [exact (Hsame Hlen)|].
  split; [exact Hne|]. exact (Hother shorter Hne).
Defined.

End SRAMFacts.

(** ** The active instance *)

Section RegistryFacts.
Import Registry.

Lemma load_binds_requester (i : instance) (p p' : process) :
  load i p = Some p' -> core p' = Some i /\ received p' = received p.
Proof.
  unfold load. destruct (core p) as [active|] eqn:Hcore.
  - destruct (decide (active = i)) as [->|]; [|discriminate].
    intros E; injection E as <-. now split.
  - intros E; injection E as <-. now split.
Qed.

(** C9: the pointer holds at most one instance; a callback reaches the
    instance the pointer holds and no other; while one instance holds
    the pointer, a load by another is rejected: the pointer is not
    rebound and nothing of the first instance changes. *)
Theorem C9_single_active_instance
    (p : process) (i j : instance) (cb : callback) :
  core p = Some i -> i <> j ->
  (forall k, core p = Some k -> k = i) /\
  load j p = None /\
  core (invoke cb p) = Some i /\
  received (invoke cb p) i = cb :: received p i /\
  (forall k, k <> i -> received (invoke cb p) k = received p k) /\
  (forall q, load i p = Some q -> q = p) /\
  core (unload j p) = Some i /\
  core (unload i p) = None.
Proof.
  intros Hcore Hij.
  split; [intros k Hk; congruence|].
  split; [unfold load; rewrite Hcore; now destruct (decide (i = j))|].
  unfold invoke, unload. rewrite Hcore. cbn [core received].
  split; [reflexivity|].
  split; [now destruct (decide (i = i))|].
  split; [intros k Hk; now destruct (decide (k = i))|].
  split.
  - intros q. unfold load. rewrite Hcore.
    destruct (decide (i = i)); congruence.
  - destruct (decide (i = j)); [contradiction|].
    destruct (decide (i = i)); [|contradiction]. now split.
Qed.

Lemma C9_single_active_instance_witness :
  let p := {| core := Some 4096%Z; received := fun _ => [] |} in
  core p = Some 4096%Z /\ 4096%Z <> 8192%Z /\
  load 8192%Z p = None /\
  core (invoke videoRefreshCallback p) = Some 4096%Z /\
  received (invoke videoRefreshCallback p) 4096%Z = [videoRefreshCallback] /\
  received (invoke videoRefreshCallback p) 8192%Z = [].
Proof.
  intros p.
  assert (Hcore : core p = Some 4096%Z) by reflexivity.
  assert (Hne : 4096%Z <> 8192%Z) by lia.
  destruct (C9_single_active_instance p 4096%Z 8192%Z videoRefreshCallback
              Hcore Hne) as (_ & Hload & Hc & Hrecv & Hothers & _).
  split; [exact Hcore|]. split; [exact Hne|]. split; [exact Hload|].
  split; [exact Hc|]. split; [exact Hrecv|].
  apply (Hothers 8192%Z). lia.
Defined.

Example load_into_free_pointer :
  option_map core (load 4096%Z {| core := None; received := fun _ => [] |})
  = Some (Some 4096%Z).
Proof. reflexivity. Qed.

End RegistryFacts.


(** ** More on option variables *)

Section VariableMore.
Import QStr Str CoreVariable.

Lemma make_cases (var : retro_variable) :
  match rv_key var with
  | None => make var = None
  | Some k => exists desc chs,
      make var = Some {| m_key := k; m_value := ""; m_description := desc;
                         m_choices := chs |}
  end.
Proof.
  unfold make. destruct (rv_key var) as [k|]; [|reflexivity].
  destruct (negb _); eexists; eexists; reflexivity.
Qed.

(** X1: the constructor makes a Variable exactly when the key is not
    null; the Variable has that key and no current value, whatever the
    descriptor, so [value(d)] gives [d] back and [value()] is empty. *)
Theorem X1_made_variable_is_unset (var : retro_variable) :
  (make var = None <-> rv_key var = None) /\
  (forall v default_,
     make var = Some v ->
     rv_key var = Some (key v) /\
     m_value v = "" /\
     value_ref v = ref_default_ /\
     value v default_ = default_ /\
     value0 v = "").
Proof.
  pose proof (make_cases var) as H.
  destruct (rv_key var) as [k|].
  - destruct H as [desc [chs H]]. rewrite H. split.
    + split; discriminate.
    + intros v default_ E. injection E as <-. repeat split.
  - rewrite H. split; [tauto | discriminate].
Qed.

Lemma X1_made_variable_is_unset_witness :
  let var := {| rv_key := Some "overscan";
                rv_value := Some "Crop overscan; on|off" |} in
  exists v,
    make var = Some v /\
    rv_key var = Some (key v) /\
    m_value v = "" /\
    value_ref v = ref_default_ /\
    value v "on" = "on" /\
    value0 v = "".
Proof.
  intros var. eexists. split; [reflexivity|].
  apply (X1_made_variable_is_unset var). reflexivity.
Defined.

(** X2: a null descriptor and an empty descriptor both make a Variable
    with the key, an empty description and no choices; so does a
    descriptor with no space in it, whose ';' are not separators. *)
Theorem X2_null_and_empty_descriptor (k words : string) :
  let bare := {| m_key := k; m_value := ""; m_description := "";
                 m_choices := [] |} in
  make {| rv_key := Some k; rv_value := None |} = Some bare /\
  make {| rv_key := Some k; rv_value := Some "" |} = Some bare /\
  (contains_char " " words = false ->
   make {| rv_key := Some k; rv_value := Some words |} = Some bare).
Proof.
  intros bare. split; [reflexivity|]. split; [reflexivity|].
  intros Hsp. apply make_without_separator.
  intros [b [a E]]. subst words. clear -Hsp.
  induction b as [|c b IH]; simpl in Hsp.
  - discriminate.
  - apply orb_false_iff in Hsp as [_ Hsp]. auto.
Qed.

Lemma X2_null_and_empty_descriptor_witness :
  contains_char " " "Speed;slow|fast" = false /\
  make {| rv_key := Some "speed"; rv_value := Some "Speed;slow|fast" |}
  = Some {| m_key := "speed"; m_value := ""; m_description := "";
            m_choices := [] |}.
Proof.
  split; [reflexivity|].
  apply (X2_null_and_empty_descriptor "speed" "Speed;slow|fast"). reflexivity.
Defined.

(** X3: when the descriptor has a separator there is at least one
    choice, and the choices are one more than the bars after the first
    separator; nothing after the separator gives one empty choice. *)
Theorem X3_choices_counted (k d : string) (v : t) :
  make {| rv_key := Some k; rv_value := Some d |} = Some v ->
  occurs "; " d ->
  exists desc rest,
    d = desc ++ "; " ++ rest /\
    (forall desc' rest', d = desc' ++ "; " ++ rest' ->
                         (String.length desc <= String.length desc')%nat) /\
    choices v <> [] /\
    length (choices v) = S (count_char "|" rest) /\
    (rest = "" -> choices v = [""]).
Proof.
  intros Hmake Hocc.
  destruct (indexOf_first "; " d Hocc) as [desc [rest [E Hmin]]].
  subst d.
  rewrite (make_first_separator k desc rest
             (first_separator_prefix desc rest Hmin)) in Hmake.
  injection Hmake as <-. exists desc, rest.
  unfold choices. cbn [m_choices].
  split; [reflexivity|]. split; [exact Hmin|].
  assert (Hlen : length (map (fun piece => toStdString (decode piece))
                             (split "|" rest))
                 = S (count_char "|" rest))
    by (rewrite length_map; apply length_split).
  split; [|split; [exact Hlen | now intros ->]].
  intros Hnil. rewrite Hnil in Hlen. discriminate.
Qed.

Lemma X3_choices_counted_witness :
  exists v desc rest,
    make {| rv_key := Some "palette";
            rv_value := Some "Palette; raw||ntsc|pal" |} = Some v /\
    "Palette; raw||ntsc|pal" = desc ++ "; " ++ rest /\
    choices v <> [] /\
    length (choices v) = S (count_char "|" rest).
Proof.
  eexists.
  destruct (X3_choices_counted "palette" "Palette; raw||ntsc|pal" _ eq_refl)
    as (desc & rest & E & _ & Hne & Hlen & _).
  - now exists "Palette", "raw||ntsc|pal".
  - exists desc, rest. split; [reflexivity|]. repeat split; assumption.
Defined.

(** X4: when the descriptor is well-formed UTF-8 with no byte-order
    mark in front and has a separator, the description has none, and
    the description, the separator and the choices joined with '|' give
    the descriptor back. *)
Theorem X4_descriptor_reassembled (k d : string) (v : t) :
  make {| rv_key := Some k; rv_value := Some d |} = Some v ->
  wellFormed d = true ->
  startsWithBom d = false ->
  occurs "; " d ->
  ~ occurs "; " (description v) /\
  description v ++ "; " ++ join "|" (choices v) = d.
Proof.
  intros Hmake Hwf Hbom Hocc.
  destruct (indexOf_first "; " d Hocc) as [desc [rest [E Hmin]]].
  subst d.
  destruct (wellFormed_descriptor desc rest Hwf Hbom) as (Hdesc & Hnobom & Hrest).
  pose proof (first_separator_prefix desc rest Hmin) as Hno.
  rewrite (make_with_separator k desc rest Hno Hdesc Hnobom Hrest) in Hmake.
  injection Hmake as <-.
  unfold description, choices. cbn [m_description m_choices].
  split; [exact Hno|]. now rewrite join_split.
Qed.

Lemma X4_descriptor_reassembled_witness :
  exists v,
    make {| rv_key := Some "aspect";
            rv_value := Some "Aspect; 4:3; tv|16:9" |} = Some v /\
    ~ occurs "; " (description v) /\
    description v ++ "; " ++ join "|" (choices v) = "Aspect; 4:3; tv|16:9".
Proof.
  eexists. split; [reflexivity|].
  apply (X4_descriptor_reassembled "aspect" "Aspect; 4:3; tv|16:9" _
           eq_refl eq_refl eq_refl).
  now exists "Aspect", "4:3; tv|16:9".
Defined.

(** X5: a descriptor written as a separator-free description, the
    separator, and one or more bar-free choices joined with '|', all of
    them well-formed UTF-8 and the description with no byte-order mark
    in front, is read back as exactly that description and those
    choices, in order. *)
Theorem X5_written_descriptor_read_back
    (k desc : string) (pieces : list string) :
  wellFormed desc = true ->
  startsWithBom desc = false ->
  Forall (fun piece => wellFormed piece = true) pieces ->
  ~ occurs "; " desc ->
  pieces <> [] ->
  Forall (fun piece => contains_char "|" piece = false) pieces ->
  make {| rv_key := Some k;
          rv_value := Some (desc ++ "; " ++ join "|" pieces) |}
  = Some {| m_key := k; m_value := ""; m_description := desc;
            m_choices := pieces |}.
Proof.
  intros Hdesc Hbom Hwf Hno Hne Hall.
  rewrite (make_with_separator k desc _ Hno Hdesc Hbom
             (wellFormed_joined pieces Hwf)).
  now rewrite split_join.
Qed.

Lemma X5_written_descriptor_read_back_witness :
  make {| rv_key := Some "frameskip";
          rv_value := Some "Frameskip; 0|1||1|auto; max" |}
  = Some {| m_key := "frameskip"; m_value := "";
            m_description := "Frameskip";
            m_choices := ["0"; "1"; ""; "1"; "auto; max"] |}.
Proof.
  apply (X5_written_descriptor_read_back "frameskip" "Frameskip"
           ["0"; "1"; ""; "1"; "auto; max"]).
  - reflexivity.
  - reflexivity.
  - repeat constructor.
  - apply (indexOf_from_absent "; " "Frameskip" 0); [lia | reflexivity].
  - discriminate.
  - repeat constructor.
Defined.

End VariableMore.

Section IndexFacts.
Import QStr.

(** X6: [splitidx] is -1 exactly when the descriptor's [QString] has no
    separator; otherwise it is at least 0 and the two units of the
    separator end within the string, so both [mid] calls of the
    constructor are in range. *)
Theorem X6_splitidx_in_range (valdesc : QString) :
  let splitidx := indexOf valdesc (fromUtf8 "; ") in
  (splitidx = (-1)%Z <-> ~ occurs (fromUtf8 "; ") valdesc) /\
  (splitidx = (-1)%Z \/ (0 <= splitidx /\ splitidx + 2 <= size valdesc)%Z).
Proof.
  intros splitidx. split.
  - split.
    + intros E. exact (q_indexOf_from_absent _ valdesc 0 ltac:(lia) E).
    + apply q_indexOf_absent.
  - destruct (Z.eq_dec splitidx (-1)) as [E | Hi]; [now left | right].
    destruct (q_indexOf_from_found _ valdesc 0 _ ltac:(lia) eq_refl Hi)
      as [before [after [E Hidx]]].
    fold (indexOf valdesc (fromUtf8 "; ")) in Hidx. fold splitidx in Hidx.
    unfold size. rewrite E, !length_app. rewrite separator_units.
    simpl. lia.
Qed.

End IndexFacts.

(** ** More on the symbol table *)

Section SymbolMore.
Import LibretroSymbols.

Lemma clear_member (symbols : t) (m : member) : clear symbols m = nullptr.
Proof. destruct m; reflexivity. Qed.

Lemma resolve_each_member (libretroCore : QLibrary) (names : list member)
    (symbols : t) (m : member) :
  resolve_each libretroCore names symbols m =
  if decide (m ∈ names) then libretroCore (member_name m) else symbols m.
Proof.
  unfold resolve_each. revert symbols.
  induction names as [|n ns IH]; intros symbols; simpl.
  - destruct (decide (m ∈ [])) as [H|]; [|reflexivity].
    now apply elem_of_nil in H.
  - rewrite IH. unfold resolved_sym, assign.
    destruct (decide (m ∈ ns)) as [Hin | Hout].
    + destruct (decide (m ∈ n :: ns)) as [|Hne]; [reflexivity|].
      exfalso. apply Hne. now right.
    + destruct (decide (m = n)) as [-> | Hmn].
      * destruct (decide (n ∈ n :: ns)) as [|Hne]; [reflexivity|].
        exfalso. apply Hne. now left.
      * destruct (decide (m ∈ n :: ns)) as [Hin|]; [|reflexivity].
        apply elem_of_cons in Hin as [? | ?]; contradiction.
Qed.

(** X7: after [clear()] and then [resolved_sym] for any members of the
    table, in any order and any number of times, a resolved member holds
    what the library exports under the member's own name (null if it
    exports none) and every other member is null: nothing of what the
    table held before is left. *)
Theorem X7_no_stale_symbol (old : t) (libretroCore : QLibrary)
    (names : list member) (m : member) :
  resolve_each libretroCore names (clear old) m =
  if decide (m ∈ names) then libretroCore (member_name m) else nullptr.
Proof. rewrite resolve_each_member. now rewrite clear_member. Qed.

End SymbolMore.
